(** * The chat server of [server/server.js]: connection, presence, room and
      message routing, as a state machine over the four stores of the file
      ([users], [messages], [typingUsers], [rooms]) and the room table of the
      Socket.IO transport the handlers drive with [socket.join],
      [socket.leave], [io.emit] and [io.to(room).emit]. *)

From Stdlib Require Import ZArith Lia.
From stdpp Require Import gmap strings list fin_maps sorting.

Local Open Scope Z_scope.
Local Open Scope string_scope.
Local Open Scope list_scope.

(** ** JavaScript objects used as maps

    [users], [typingUsers] and [rooms] are plain object literals.  Their own
    properties are a finite map; a read [o[k]] that finds no own property
    falls through to [Object.prototype], so that it is truthy for the names
    below although nothing was ever stored under them.

    Connection ids ([socket.id]) are issued by the transport; the model takes
    them as strings and lets the transport issue only ids that are not among
    these names (see [enabled]).  Room names come from the clients and are
    arbitrary strings.  The order in which [Object.values] enumerates an
    object is not modelled: payloads built from it list the values in the
    order of [map_to_list]. *)

Definition object_prototype_names : list string :=
  [ "constructor"; "__proto__"; "hasOwnProperty"; "isPrototypeOf";
    "propertyIsEnumerable"; "toLocaleString"; "toString"; "valueOf";
    "__defineGetter__"; "__defineSetter__"; "__lookupGetter__";
    "__lookupSetter__" ].

Definition inherited (k : string) : bool :=
  bool_decide (k ∈ object_prototype_names).

(** Truthiness of [o[k]] for an object whose own values are all objects. *)
Definition truthy_at {V} (o : gmap string V) (k : string) : bool :=
  bool_decide (is_Some (o !! k)) || inherited k.

(** ** Data *)

(** [{ username, id, rooms: new Set([...]) }] *)
Record User := mkUser {
  u_username : string;
  u_id : string;
  u_rooms : gset string
}.

(** [{ name, members: new Set() }] *)
Record Room := mkRoom {
  r_name : string;
  r_members : gset string
}.

(** The payload of [send_message]: [{ message, room? }]. *)
Record MessageData := mkMessageData {
  md_message : string;
  md_room : option string
}.

(** The payload of [private_message]: [{ to, message }]. *)
Record PrivateMessageData := mkPrivateMessageData {
  pm_to : string;
  pm_message : string
}.

(** A stored message.  [m_message] is what the spread [...messageData]
    contributes; the clock readings [Date.now()] and [new Date()] are
    integers (milliseconds). *)
Record Message := mkMessage {
  m_message : option string;
  m_id : Z;
  m_sender : string;
  m_senderId : string;
  m_timestamp : Z;
  m_room : string;
  m_deliveredTo : gset string;
  m_readBy : gset string
}.

(** [{ ...message, deliveredTo: undefined, readBy: undefined }] *)
Record MessageView := mkMessageView {
  v_message : option string;
  v_id : Z;
  v_sender : string;
  v_senderId : string;
  v_timestamp : Z;
  v_room : string
}.

Definition view (m : Message) : MessageView :=
  mkMessageView (m_message m) (m_id m) (m_sender m) (m_senderId m)
                (m_timestamp m) (m_room m).

(** What is sent to clients. *)
Inductive Payload :=
| user_list (us : list User)
| user_joined (username id : string)
| user_left (username id : string)
| receive_message (p : MessageView)
| typing_users (names : list string)
| room_notification (room message : string) (timestamp : Z)
| private_message_out (id : Z) (sender senderId message : string) (timestamp : Z)
| message_read_out (messageId : Z) (readerId : string) (reader : option string)
| ack_out (ok : bool) (messageId : Z).

(** How the code addresses an emission. *)
Inductive Target :=
| io_emit                                  (* io.emit(...) *)
| io_to (room : string)                    (* io.to(room).emit(...) *)
| socket_to (sid room : string)            (* socket.to(room).emit(...) *)
| socket_emit (sid : string)               (* socket.emit(...) *)
| ack_to (sid : string).                   (* ack(...) *)

(** An emission with the connections the transport hands it to.  [io.emit]
    reaches every connected socket and [io.to(room)] the sockets of the
    channel; [socket.to(room)] leaves out the sockets of the channel named by
    the sender's id, so also sockets that joined a room of that name. *)
Record Emit := mkEmit {
  e_target : Target;
  e_payload : Payload;
  e_recipients : gset string
}.

(** The stores of the file and the transport's table: for every connected
    socket, the channels it has joined.  Socket.IO puts every socket in the
    channel named by its own id, which is what [io.to(msg.senderId)] and
    [socket.to(to)] rely on. *)
Record State := mkState {
  users : gmap string User;
  messages : list Message;
  typingUsers : gmap string string;
  rooms : gmap string Room;
  sockets : gmap string (gset string)
}.

Definition set_users (f : gmap string User → gmap string User) (st : State) :=
  mkState (f (users st)) (messages st) (typingUsers st) (rooms st) (sockets st).
Definition set_messages (f : list Message → list Message) (st : State) :=
  mkState (users st) (f (messages st)) (typingUsers st) (rooms st) (sockets st).
Definition set_typingUsers (f : gmap string string → gmap string string) (st : State) :=
  mkState (users st) (messages st) (f (typingUsers st)) (rooms st) (sockets st).
Definition set_rooms (f : gmap string Room → gmap string Room) (st : State) :=
  mkState (users st) (messages st) (typingUsers st) (f (rooms st)) (sockets st).
Definition set_sockets
    (f : gmap string (gset string) → gmap string (gset string)) (st : State) :=
  mkState (users st) (messages st) (typingUsers st) (rooms st) (f (sockets st)).

(** [const rooms = { global: { name: 'global', members: new Set() } }] *)
Definition init : State :=
  mkState ∅ [] ∅ {[ "global" := mkRoom "global" ∅ ]} ∅.

(** ** The transport *)

Definition connected (st : State) : gset string := dom (sockets st).

Definition channel (st : State) (room : string) : gset string :=
  dom (filter (λ kv, room ∈ kv.2) (sockets st)).

Definition recipients (st : State) (t : Target) : gset string :=
  match t with
  | io_emit => connected st
  | io_to room => channel st room
  | socket_to sid room => channel st room ∖ channel st sid
  | socket_emit sid => {[ sid ]} ∩ connected st
  | ack_to sid => {[ sid ]}
  end.

Definition emit (st : State) (t : Target) (p : Payload) : Emit :=
  mkEmit t p (recipients st t).

(** [socket.join(room)] and [socket.leave(room)] *)
Definition socket_join (sid room : string) (st : State) : State :=
  set_sockets (alter (λ rs, rs ∪ {[ room ]}) sid) st.
Definition socket_leave (sid room : string) (st : State) : State :=
  set_sockets (alter (λ rs, rs ∖ {[ room ]}) sid) st.

(** A new connection, and what Socket.IO does to a socket that closes before
    it fires [disconnect]: it leaves every channel and the namespace. *)
Definition socket_open (sid : string) (st : State) : State :=
  set_sockets (insert sid {[ sid ]}) st.
Definition socket_close (sid : string) (st : State) : State :=
  set_sockets (delete sid) st.

(** ** The handlers

    A handler returns the new state and what it emitted, or [TypeError] when
    it reads a property of [undefined]: nothing catches the exception. *)
Inductive Result :=
| Ok (st : State) (out : list Emit)
| TypeError.

Definition values {V} (o : gmap string V) : list V := (map_to_list o).*2.

(** [room.members.add(sid)], [room.members.delete(sid)],
    [user.rooms.add(r)], [user.rooms.delete(r)] *)
Definition add_member (sid : string) (room : Room) : Room :=
  mkRoom (r_name room) (r_members room ∪ {[ sid ]}).
Definition del_member (sid : string) (room : Room) : Room :=
  mkRoom (r_name room) (r_members room ∖ {[ sid ]}).
Definition add_room (r : string) (u : User) : User :=
  mkUser (u_username u) (u_id u) (u_rooms u ∪ {[ r ]}).
Definition del_room (r : string) (u : User) : User :=
  mkUser (u_username u) (u_id u) (u_rooms u ∖ {[ r ]}).

(** [users[socket.id]?.username || dflt] *)
Definition username_or (dflt : string) (st : State) (sid : string) : string :=
  match users st !! sid with
  | Some u => if decide (u_username u = "") then dflt else u_username u
  | None => dflt
  end.

(** [socket.on('user_join', (username) => ...)] *)
Definition user_join (sid username : string) (st : State) : Result :=
  let st1 := set_users (insert sid (mkUser username sid {[ "global" ]})) st in
  let st2 := socket_join sid "global" st1 in
  match rooms st2 !! "global" with
  | None => TypeError
  | Some g =>
      let st3 :=
        set_rooms (insert "global" (add_member sid g)) st2 in
      Ok st3 [ emit st3 io_emit (user_list (values (users st3)));
               emit st3 io_emit (user_joined username sid) ]
  end.

(** [messageData?.room || 'global'] *)
Definition target_room (messageData : option MessageData) : string :=
  match messageData with
  | Some d =>
      match md_room d with
      | Some r => if decide (r = "") then "global" else r
      | None => "global"
      end
  | None => "global"
  end.

(** [messages.push(message); if (messages.length > 100) messages.shift();] *)
Definition push_capped (message : Message) (log : list Message) : list Message :=
  let log1 := log ++ [message] in
  if decide (100 < length log1)%nat then tail log1 else log1.

(** [socket.on('send_message', (messageData, ack) => ...)]; [ack] says whether
    a callback came with the event, [now] is [Date.now()] and [stamp] the
    instant of [new Date()]. *)
Definition send_message (sid : string) (messageData : option MessageData)
    (ack : bool) (now stamp : Z) (st : State) : Result :=
  let message :=
    mkMessage (md_message <$> messageData) now (username_or "Anonymous" st sid)
              sid stamp (target_room messageData) ∅ ∅ in
  let st1 := set_messages (push_capped message) st in
  let acks := if ack then [ emit st1 (ack_to sid) (ack_out true (m_id message)) ] else [] in
  let payload := view message in
  if negb (bool_decide (m_room message = "")) && truthy_at (rooms st1) (m_room message)
  then Ok st1 (acks ++ [ emit st1 (io_to (m_room message)) (receive_message payload) ])
  else Ok st1 (acks ++ [ emit st1 io_emit (receive_message payload) ]).

(** [socket.on('typing', (isTyping) => ...)] *)
Definition typing (sid : string) (isTyping : bool) (st : State) : Result :=
  match users st !! sid with
  | Some u =>
      let st1 :=
        if isTyping then set_typingUsers (insert sid (u_username u)) st
        else set_typingUsers (delete sid) st in
      Ok st1 [ emit st1 io_emit (typing_users (values (typingUsers st1))) ]
  | None => Ok st []
  end.

(** [socket.on('join_room', (roomName) => ...)] *)
Definition join_room (sid roomName : string) (stamp : Z) (st : State) : Result :=
  if decide (roomName = "") then Ok st []
  else
    let st1 :=
      if truthy_at (rooms st) roomName then st
      else set_rooms (insert roomName (mkRoom roomName ∅)) st in
    let st2 := socket_join sid roomName st1 in
    match rooms st2 !! roomName with
    | None => TypeError
    | Some room =>
        let st3 :=
          set_rooms (insert roomName (add_member sid room)) st2 in
        let st4 := set_users (alter (add_room roomName) sid) st3 in
        Ok st4 [ emit st4 (io_to roomName)
                   (room_notification roomName
                      (username_or "User" st4 sid +:+ " joined " +:+ roomName) stamp) ]
    end.

(** [socket.on('leave_room', (roomName) => ...)] *)
Definition leave_room (sid roomName : string) (stamp : Z) (st : State) : Result :=
  if decide (roomName = "") then Ok st []
  else if negb (truthy_at (rooms st) roomName) then Ok st []
  else
    let st1 := socket_leave sid roomName st in
    match rooms st1 !! roomName with
    | None => TypeError
    | Some room =>
        let st2 :=
          set_rooms (insert roomName (del_member sid room)) st1 in
        let st3 := set_users (alter (del_room roomName) sid) st2 in
        Ok st3 [ emit st3 (io_to roomName)
                   (room_notification roomName
                      (username_or "User" st3 sid +:+ " left " +:+ roomName) stamp) ]
    end.

(** [socket.on('private_message', ({ to, message }, ack) => ...)] *)
Definition private_message (sid to message : string) (ack : bool) (now stamp : Z)
    (st : State) : Result :=
  let p := private_message_out now (username_or "Anonymous" st sid) sid message stamp in
  Ok st ([ emit st (socket_to sid to) p; emit st (socket_emit sid) p ]
         ++ (if ack then [ emit st (ack_to sid) (ack_out true now) ] else [])).

(** [messages.find((m) => m.id === messageId)] *)
Definition find_message (messageId : Z) (log : list Message) : option Message :=
  List.find (λ m, bool_decide (m_id m = messageId)) log.

(** [msg.readBy?.add?.(socket.id)] on the message [find] returned, which is
    the first one of the log with that id. *)
Fixpoint mark_read (messageId : Z) (sid : string) (log : list Message) : list Message :=
  match log with
  | [] => []
  | m :: log' =>
      if bool_decide (m_id m = messageId)
      then mkMessage (m_message m) (m_id m) (m_sender m) (m_senderId m) (m_timestamp m)
                     (m_room m) (m_deliveredTo m) (m_readBy m ∪ {[ sid ]}) :: log'
      else m :: mark_read messageId sid log'
  end.

(** [socket.on('message_read', ({ messageId }) => ...)] *)
Definition message_read (sid : string) (messageId : Z) (st : State) : Result :=
  match find_message messageId (messages st) with
  | None => Ok st []
  | Some msg =>
      let st1 := set_messages (mark_read messageId sid) st in
      Ok st1 [ emit st1 (io_to (m_senderId msg))
                 (message_read_out messageId sid (u_username <$> users st1 !! sid)) ]
  end.

(** [socket.on('disconnect', () => ...)] *)
Definition disconnect (sid : string) (st : State) : Result :=
  let left :=
    match users st !! sid with
    | Some u => [ emit st io_emit (user_left (u_username u) sid) ]
    | None => []
    end in
  let st1 :=
    set_rooms (fmap (del_member sid)) st in
  let st2 := set_users (delete sid) st1 in
  let st3 := set_typingUsers (delete sid) st2 in
  Ok st3 (left ++ [ emit st3 io_emit (user_list (values (users st3)));
                    emit st3 io_emit (typing_users (values (typingUsers st3))) ]).

(** ** The event loop *)

(** An inbound event with its payload.  [message_read] and [private_message]
    take their payload apart in the parameter list, [({ messageId })] and
    [({ to, message }, ack)]: when the client sent none (or [null]) the
    pattern throws before the body runs, which is the payload [None] here.
    [messageData] of [send_message] is read with [?.] and may be missing. *)
Inductive Event :=
| EvConnection (sid : string)
| EvUserJoin (sid username : string)
| EvSendMessage (sid : string) (messageData : option MessageData) (ack : bool) (now stamp : Z)
| EvTyping (sid : string) (isTyping : bool)
| EvJoinRoom (sid roomName : string) (stamp : Z)
| EvLeaveRoom (sid roomName : string) (stamp : Z)
| EvPrivateMessage (sid : string) (payload : option PrivateMessageData)
                   (ack : bool) (now stamp : Z)
| EvMessageRead (sid : string) (payload : option Z)
| EvDisconnect (sid : string).

Definition source (ev : Event) : string :=
  match ev with
  | EvConnection sid | EvUserJoin sid _ | EvSendMessage sid _ _ _ _
  | EvTyping sid _ | EvJoinRoom sid _ _ | EvLeaveRoom sid _ _
  | EvPrivateMessage sid _ _ _ _ | EvMessageRead sid _ | EvDisconnect sid => sid
  end.

(** The transport opens a connection under a fresh id and delivers the events
    of connected sockets only. *)
Definition enabled (st : State) (ev : Event) : bool :=
  match ev with
  | EvConnection sid => bool_decide (sid ∉ connected st) && negb (inherited sid)
  | _ => bool_decide (source ev ∈ connected st)
  end.

Definition handle (ev : Event) (st : State) : Result :=
  match ev with
  | EvConnection sid => Ok (socket_open sid st) []
  | EvUserJoin sid username => user_join sid username st
  | EvSendMessage sid messageData ack now stamp => send_message sid messageData ack now stamp st
  | EvTyping sid isTyping => typing sid isTyping st
  | EvJoinRoom sid roomName stamp => join_room sid roomName stamp st
  | EvLeaveRoom sid roomName stamp => leave_room sid roomName stamp st
  | EvPrivateMessage sid payload ack now stamp =>
      match payload with
      | Some p => private_message sid (pm_to p) (pm_message p) ack now stamp st
      | None => TypeError
      end
  | EvMessageRead sid payload =>
      match payload with
      | Some messageId => message_read sid messageId st
      | None => TypeError
      end
  | EvDisconnect sid => disconnect sid (socket_close sid st)
  end.

(** Running a sequence of events; [None] when the transport could not have
    delivered one of them or a handler threw. *)
Fixpoint run (st : State) (evs : list Event) : option (State * list Emit) :=
  match evs with
  | [] => Some (st, [])
  | ev :: evs' =>
      if enabled st ev then
        match handle ev st with
        | Ok st1 out1 =>
            match run st1 evs' with
            | Some (st2, out2) => Some (st2, out1 ++ out2)
            | None => None
            end
        | TypeError => None
        end
      else None
  end.

Inductive reachable : State → Prop :=
| reachable_init : reachable init
| reachable_step st ev st1 out :
    reachable st → enabled st ev = true → handle ev st = Ok st1 out → reachable st1.

(** The state a sequence of events leaves (the initial one when the sequence
    cannot run), and what was emitted on the way. *)
Definition after (evs : list Event) : State :=
  match run init evs with Some (st, _) => st | None => init end.
Definition emitted (evs : list Event) : list Emit :=
  match run init evs with Some (_, out) => out | None => [] end.

(** ** What a handler that returns leaves behind

    The state changes of the handlers as a relation, one rule per path
    through the code; [handle_effect] derives it from the functions. *)

Inductive effect : Event → State → State → Prop :=
| eff_connection sid st :
    effect (EvConnection sid) st
      (mkState (users st) (messages st) (typingUsers st) (rooms st)
               (<[sid := {[ sid ]}]> (sockets st)))
| eff_user_join sid username st g :
    rooms st !! "global" = Some g →
    effect (EvUserJoin sid username) st
      (mkState (<[sid := mkUser username sid {[ "global" ]}]> (users st))
               (messages st) (typingUsers st)
               (<["global" := add_member sid g]> (rooms st))
               (alter (λ rs, rs ∪ {[ "global" ]}) sid (sockets st)))
| eff_send_message sid messageData ack now stamp st :
    effect (EvSendMessage sid messageData ack now stamp) st
      (mkState (users st)
         (push_capped
            (mkMessage (md_message <$> messageData) now (username_or "Anonymous" st sid)
                       sid stamp (target_room messageData) ∅ ∅) (messages st))
         (typingUsers st) (rooms st) (sockets st))
| eff_typing_ignored sid isTyping st :
    users st !! sid = None →
    effect (EvTyping sid isTyping) st st
| eff_typing_start sid st u :
    users st !! sid = Some u →
    effect (EvTyping sid true) st
      (mkState (users st) (messages st) (<[sid := u_username u]> (typingUsers st))
               (rooms st) (sockets st))
| eff_typing_stop sid st u :
    users st !! sid = Some u →
    effect (EvTyping sid false) st
      (mkState (users st) (messages st) (delete sid (typingUsers st))
               (rooms st) (sockets st))
| eff_join_room_empty sid stamp st :
    effect (EvJoinRoom sid "" stamp) st st
| eff_join_room_known sid r stamp st room :
    r ≠ "" → rooms st !! r = Some room →
    effect (EvJoinRoom sid r stamp) st
      (mkState (alter (add_room r) sid (users st)) (messages st) (typingUsers st)
               (<[r := add_member sid room]> (rooms st))
               (alter (λ rs, rs ∪ {[ r ]}) sid (sockets st)))
| eff_join_room_new sid r stamp st :
    r ≠ "" → rooms st !! r = None → inherited r = false →
    effect (EvJoinRoom sid r stamp) st
      (mkState (alter (add_room r) sid (users st)) (messages st) (typingUsers st)
               (<[r := mkRoom r {[ sid ]}]> (rooms st))
               (alter (λ rs, rs ∪ {[ r ]}) sid (sockets st)))
| eff_leave_room_ignored sid r stamp st :
    r = "" ∨ (rooms st !! r = None ∧ inherited r = false) →
    effect (EvLeaveRoom sid r stamp) st st
| eff_leave_room sid r stamp st room :
    r ≠ "" → rooms st !! r = Some room →
    effect (EvLeaveRoom sid r stamp) st
      (mkState (alter (del_room r) sid (users st)) (messages st) (typingUsers st)
               (<[r := del_member sid room]> (rooms st))
               (alter (λ rs, rs ∖ {[ r ]}) sid (sockets st)))
| eff_private_message sid to message ack now stamp st :
    effect (EvPrivateMessage sid (Some (mkPrivateMessageData to message)) ack now stamp)
           st st
| eff_message_read_unknown sid messageId st :
    find_message messageId (messages st) = None →
    effect (EvMessageRead sid (Some messageId)) st st
| eff_message_read sid messageId st msg :
    find_message messageId (messages st) = Some msg →
    effect (EvMessageRead sid (Some messageId)) st
      (mkState (users st) (mark_read messageId sid (messages st)) (typingUsers st)
               (rooms st) (sockets st))
| eff_disconnect sid st :
    effect (EvDisconnect sid) st
      (mkState (delete sid (users st)) (messages st) (delete sid (typingUsers st))
               (del_member sid <$> rooms st) (delete sid (sockets st))).

(** ** Notions the properties are stated with *)

(** The state [disconnect] leaves, once the transport has closed the socket. *)
Definition without (sid : string) (st : State) : State :=
  mkState (delete sid (users st)) (messages st) (delete sid (typingUsers st))
          (del_member sid <$> rooms st) (delete sid (sockets st)).

(** The readings of [Date.now()] a sequence of events takes for message ids,
    in order. *)
Definition id_clock (ev : Event) : option Z :=
  match ev with
  | EvSendMessage _ _ _ now _ => Some now
  | _ => None
  end.

Definition clock_readings (evs : list Event) : list Z := omap id_clock evs.

(** [c] is in [rooms[r].members]; [r] is in [users[c].rooms]; socket [c] is in
    the transport's channel [r]. *)
Definition member_of (rs : gmap string Room) (c r : string) : Prop :=
  ∃ room, rs !! r = Some room ∧ c ∈ r_members room.
Definition cached_in (us : gmap string User) (c r : string) : Prop :=
  ∃ u, us !! c = Some u ∧ r ∈ u_rooms u.
Definition joined_in (ss : gmap string (gset string)) (c r : string) : Prop :=
  ∃ chans, ss !! c = Some chans ∧ r ∈ chans.

(** The invariant of the data model: [c] is a member of room [r] exactly when
    [r] is in the rooms cached for [c]. *)
Definition consistent (st : State) : Prop :=
  ∀ c r, member_of (rooms st) c r ↔ cached_in (users st) c r.

(** The invariant for one connection. *)
Definition consistent_for (c : string) (st : State) : Prop :=
  ∀ r, member_of (rooms st) c r ↔ cached_in (users st) c r.

(** Connection [c] keeps to the order of the protocol when it registers
    once, before it joins rooms: its [user_join] comes while it has no entry
    in [users], its [join_room] while it has one.  The events of the other
    connections are not restricted. *)
Definition registered (st : State) (sid : string) : bool :=
  bool_decide (is_Some (users st !! sid)).

Definition orderly (c : string) (st : State) (ev : Event) : bool :=
  match ev with
  | EvUserJoin sid _ => if decide (sid = c) then negb (registered st sid) else true
  | EvJoinRoom sid _ _ => if decide (sid = c) then registered st sid else true
  | _ => true
  end.

Fixpoint orderly_run (c : string) (st : State) (evs : list Event) : bool :=
  match evs with
  | [] => true
  | ev :: evs' =>
      orderly c st ev &&
      match handle ev st with
      | Ok st1 _ => orderly_run c st1 evs'
      | TypeError => true
      end
  end.

(** ** The query routes

    [app.get('/api/messages', ...)] answers with
    [messages.map((m) => ({ ...m, deliveredTo: undefined, readBy: undefined }))]
    and [app.get('/api/users', ...)] with [Object.values(users)]. *)
Definition api_messages (st : State) : list MessageView := view <$> messages st.
Definition api_users (st : State) : list User := values (users st).


(** [m1] is [m] with, possibly, more readers. *)
Definition grown (m m1 : Message) : Prop :=
  view m1 = view m ∧ m_deliveredTo m1 = m_deliveredTo m ∧ m_readBy m ⊆ m_readBy m1.

(** [msg.readBy.add(sid)] *)
Definition add_reader (sid : string) (m : Message) : Message :=
  mkMessage (m_message m) (m_id m) (m_sender m) (m_senderId m) (m_timestamp m)
            (m_room m) (m_deliveredTo m) (m_readBy m ∪ {[ sid ]}).

(** The states [join_room] and [leave_room] leave when they find [room]
    under the name [r]. *)
Definition joined (sid r : string) (room : Room) (st : State) : State :=
  mkState (alter (add_room r) sid (users st)) (messages st) (typingUsers st)
          (<[r := add_member sid room]> (rooms st))
          (alter (λ rs, rs ∪ {[ r ]}) sid (sockets st)).
Definition parted (sid r : string) (room : Room) (st : State) : State :=
  mkState (alter (del_room r) sid (users st)) (messages st) (typingUsers st)
          (<[r := del_member sid room]> (rooms st))
          (alter (λ rs, rs ∖ {[ r ]}) sid (sockets st)).

(** ** Sample runs *)

Definition one_message : list Event :=
  [ EvConnection "a"; EvUserJoin "a" "alice";
    EvSendMessage "a" (Some (mkMessageData "hi" None)) true 1000 1000 ].

Definition two_users : list Event :=
  [ EvConnection "a"; EvConnection "b";
    EvUserJoin "a" "alice"; EvUserJoin "b" "bob" ].

Definition send_at (sid : string) (now : Z) : Event :=
  EvSendMessage sid (Some (mkMessageData "hi" None)) false now now.

Definition hundred_sends : list Event :=
  EvConnection "a" :: EvUserJoin "a" "alice"
    :: ((λ n, send_at "a" (Z.of_nat n)) <$> seq 1 100).

Definition same_millisecond : list Event :=
  [ EvConnection "a"; EvUserJoin "a" "alice"; send_at "a" 1000; send_at "a" 1000 ].

Definition colliding_sends : list Event :=
  [ EvConnection "a"; EvConnection "b";
    EvUserJoin "a" "alice"; EvUserJoin "b" "bob";
    EvSendMessage "a" (Some (mkMessageData "first" None)) true 1000 1000;
    EvSendMessage "b" (Some (mkMessageData "second" None)) true 1000 1000 ].

Definition stray_client : list Event :=
  [ EvConnection "a"; EvConnection "b"; EvJoinRoom "b" "dev" 1;
    EvUserJoin "a" "alice"; EvJoinRoom "a" "dev" 2; EvUserJoin "b" "bob";
    EvUserJoin "b" "bobby"; EvLeaveRoom "a" "global" 3 ].

Definition dev_room : list Event :=
  [ EvConnection "a"; EvConnection "b";
    EvUserJoin "a" "alice"; EvUserJoin "b" "bob"; EvJoinRoom "b" "dev" 1 ].

Definition eavesdropper : list Event :=
  dev_room ++ [EvConnection "c"; EvJoinRoom "c" "b" 2].

Definition rooms_session : list Event :=
  [ EvConnection "a"; EvConnection "b";
    EvUserJoin "a" "alice"; EvUserJoin "b" "bob";
    EvJoinRoom "a" "dev" 1; EvJoinRoom "b" "dev" 2; EvLeaveRoom "a" "global" 3;
    EvLeaveRoom "b" "dev" 4; EvJoinRoom "b" "ops" 5; EvDisconnect "a" ].

(** * Properties *)

(** ** Runs and reachable states *)

Lemma reachable_run st evs st1 out :
  reachable st → run st evs = Some (st1, out) → reachable st1.
Proof.
  revert st out. induction evs as [|ev evs IH]; intros st out Hst Hrun; simpl in Hrun.
  - by simplify_eq.
  - destruct (enabled st ev) eqn:Hen; [|done].
    destruct (handle ev st) as [st2 out2|] eqn:Hh; [|done].
    destruct (run st2 evs) as [[st3 out3]|] eqn:Hr; [|done].
    simplify_eq. eapply IH; [|done]. by eapply reachable_step.
Qed.

Lemma reachable_after evs : reachable (after evs).
Proof.
  unfold after. destruct (run init evs) as [[st out]|] eqn:Hr.
  - eapply reachable_run; [apply reachable_init | done].
  - apply reachable_init.
Qed.

(** ** The handlers refine the relation [effect] *)

Lemma truthy_at_false {V} (o : gmap string V) k :
  truthy_at o k = false → o !! k = None ∧ inherited k = false.
Proof.
  unfold truthy_at. intros [H1 H2]%orb_false_iff. split; [|done].
  apply bool_decide_eq_false in H1. by apply eq_None_not_Some.
Qed.

Lemma truthy_at_own {V} (o : gmap string V) k v : o !! k = Some v → truthy_at o k = true.
Proof.
  intros H. unfold truthy_at. apply orb_true_iff. left.
  apply bool_decide_eq_true. eauto.
Qed.

Lemma handle_effect ev st st1 out : handle ev st = Ok st1 out → effect ev st st1.
Proof.
  destruct ev; simpl.
  - intros [= <- <-]. exact (eff_connection sid st).
  - unfold user_join; simpl. destruct (rooms st !! "global") as [g|] eqn:Hg; [|done].
    intros [= <- <-]. exact (eff_user_join sid username st g Hg).
  - unfold send_message. destruct (_ && _); intros [= <- <-];
      exact (eff_send_message sid messageData ack now stamp st).
  - unfold typing. destruct (users st !! sid) as [u|] eqn:Hu.
    + destruct isTyping; intros [= <- <-].
      * exact (eff_typing_start sid st u Hu).
      * exact (eff_typing_stop sid st u Hu).
    + intros [= <- <-]. by constructor.
  - unfold join_room. destruct (decide (roomName = "")) as [->|Hne].
    { intros [= <- <-]. constructor. }
    destruct (truthy_at (rooms st) roomName) eqn:Ht; simpl.
    + destruct (rooms st !! roomName) as [room|] eqn:Hr; [|done].
      intros [= <- <-]. exact (eff_join_room_known sid roomName stamp st room Hne Hr).
    + apply truthy_at_false in Ht as [Hr Hin].
      rewrite lookup_insert_eq. intros [= <- <-]. unfold set_users, set_rooms; simpl.
      rewrite insert_insert_eq. unfold add_member; simpl.
      rewrite (left_id_L ∅ (∪)).
      exact (eff_join_room_new sid roomName stamp st Hne Hr Hin).
  - unfold leave_room. destruct (decide (roomName = "")) as [->|Hne].
    { intros [= <- <-]. constructor. by left. }
    destruct (truthy_at (rooms st) roomName) eqn:Ht; simpl.
    + destruct (rooms st !! roomName) as [room|] eqn:Hr; [|done].
      intros [= <- <-]. exact (eff_leave_room sid roomName stamp st room Hne Hr).
    + apply truthy_at_false in Ht. intros [= <- <-]. constructor. by right.
  - destruct payload as [[to message]|]; [|done].
    unfold private_message; simpl. intros [= <- <-]. constructor.
  - destruct payload as [messageId|]; [|done].
    unfold message_read. destruct (find_message messageId (messages st)) eqn:Hf.
    + intros [= <- <-]. exact (eff_message_read sid messageId st m Hf).
    + intros [= <- <-]. by constructor.
  - unfold disconnect. simpl. intros [= <- <-]. exact (eff_disconnect sid st).
Qed.

(** ** Invariants of the reachable states *)

Ltac step_cases Hh :=
  apply handle_effect in Hh; inversion Hh; subst; clear Hh; simpl in *.

(** The room [global] of the initial directory is never removed, and no room
    is ever stored under a name of [Object.prototype]. *)
Lemma reachable_directory st :
  reachable st →
  is_Some (rooms st !! "global") ∧ ∀ k, inherited k = true → rooms st !! k = None.
Proof.
  induction 1 as [|st ev st1 out Hst [IHg IHp] Hen Hh].
  { split; [by vm_compute; eauto|]. intros k Hk. unfold init; simpl.
    apply lookup_singleton_ne. by intros <-. }
  step_cases Hh; try done.
  - split; [rewrite lookup_insert_eq; eauto|].
    intros k Hk. rewrite lookup_insert_ne; [auto|]. by intros <-.
  - split.
    + rewrite lookup_insert; destruct (decide _); eauto.
    + intros k Hk. rewrite lookup_insert_ne; [auto|]. intros <-.
      specialize (IHp _ Hk). congruence.
  - split.
    + rewrite lookup_insert; destruct (decide _); eauto.
    + intros k Hk. rewrite lookup_insert_ne; [auto|]. intros <-. congruence.
  - split.
    + rewrite lookup_insert; destruct (decide _); eauto.
    + intros k Hk. rewrite lookup_insert_ne; [auto|]. intros <-.
      specialize (IHp _ Hk). congruence.
  - split.
    + rewrite lookup_fmap. destruct IHg as [g ->]. simpl; eauto.
    + intros k Hk. by rewrite lookup_fmap, IHp.
Qed.

(** Only connected sockets are registered or members of a room. *)
Lemma reachable_connected st :
  reachable st →
  (∀ c, is_Some (users st !! c) → c ∈ connected st) ∧
  (∀ r room c, rooms st !! r = Some room → c ∈ r_members room → c ∈ connected st).
Proof.
  unfold connected.
  induction 1 as [|st ev st1 out Hst [IHu IHm] Hen Hh].
  { split.
    - intros c [u Hu]. unfold init in Hu; simpl in Hu. by rewrite lookup_empty in Hu.
    - intros r room c Hr Hc. unfold init in Hr; simpl in Hr.
      apply lookup_singleton_Some in Hr as [_ <-]. set_solver. }
  step_cases Hh; try done; try (apply bool_decide_eq_true in Hen; unfold connected in Hen).
  - split.
    + intros c Hc. rewrite dom_insert_L. set_solver.
    + intros r room c Hr Hc. rewrite dom_insert_L. set_solver.
  - rewrite dom_alter_L. split.
    + intros c [u Hu]. rewrite lookup_insert in Hu. case_decide; simplify_eq; eauto.
    + intros r room c Hr Hc. rewrite lookup_insert in Hr.
      case_decide; simplify_eq/=; [|eauto].
      apply elem_of_union in Hc as [Hc|Hc]; [eauto|]. set_solver.
  - rewrite dom_alter_L. split.
    + intros c [u Hu]. apply IHu. rewrite lookup_alter in Hu.
      case_decide; simplify_eq/=; [|eauto].
      destruct (users st !! c); simplify_eq/=; eauto.
    + intros r0 room0 c Hr Hc. rewrite lookup_insert in Hr.
      case_decide; simplify_eq/=; [|eauto].
      apply elem_of_union in Hc as [Hc|Hc]; [eauto|]. set_solver.
  - rewrite dom_alter_L. split.
    + intros c [u Hu]. apply IHu. rewrite lookup_alter in Hu.
      case_decide; simplify_eq/=; [|eauto].
      destruct (users st !! c); simplify_eq/=; eauto.
    + intros r0 room0 c Hr Hc. rewrite lookup_insert in Hr.
      case_decide; simplify_eq/=; [|eauto]. set_solver.
  - rewrite dom_alter_L. split.
    + intros c [u Hu]. apply IHu. rewrite lookup_alter in Hu.
      case_decide; simplify_eq/=; [|eauto].
      destruct (users st !! c); simplify_eq/=; eauto.
    + intros r0 room0 c Hr Hc. rewrite lookup_insert in Hr.
      case_decide; simplify_eq/=; [|eauto].
      apply elem_of_difference in Hc as [Hc _]. eauto.
  - rewrite dom_delete_L. split.
    + intros c [u Hu]. rewrite lookup_delete in Hu. case_decide; [done|].
      apply elem_of_difference. split; [eauto|set_solver].
    + intros r room c Hr Hc. rewrite lookup_fmap in Hr.
      destruct (rooms st !! r) as [room0|] eqn:Hr0; simplify_eq/=.
      apply elem_of_difference in Hc as [Hc Hne].
      apply elem_of_difference. split; [eauto|done].
Qed.

(** ** Read receipts *)

Lemma find_message_None messageId log :
  Forall (λ m, m_id m ≠ messageId) log → find_message messageId log = None.
Proof.
  unfold find_message. induction 1 as [|m log Hm _ IH]; simpl; [done|].
  by rewrite bool_decide_eq_false_2.
Qed.

(** C6: a [message_read] whose id matches no retained message is a no-op: the
    handler returns normally, leaves every store as it was and emits nothing. *)
Theorem message_read_unknown_noop sid messageId st :
  Forall (λ m, m_id m ≠ messageId) (messages st) →
  handle (EvMessageRead sid (Some messageId)) st = Ok st [].
Proof.
  intros Hno. simpl. unfold message_read. by rewrite find_message_None.
Qed.

Lemma message_read_unknown_noop_witness :
  handle (EvMessageRead "a" (Some 7)) (after one_message) = Ok (after one_message) [].
Proof.
  apply (message_read_unknown_noop "a" 7 (after one_message)).
  refine (bool_decide_unpack _ _). vm_compute. exact I.
Defined.

(** The first of 101 messages has left the log, and a receipt for it changes
    nothing. *)
Example message_read_evicted :
  let st := after (hundred_sends ++ [send_at "a" 101]) in
  find_message 1 (messages st) = None ∧ handle (EvMessageRead "a" (Some 1)) st = Ok st [].
Proof. split; vm_compute; reflexivity. Qed.

(** ** Typing *)

(** C9: a [typing] event of a connection without an entry in [users] is
    ignored: no exception, the same state (so the same [typingUsers]) and no
    [typing_users] emission. *)
Theorem typing_unregistered_ignored sid isTyping st :
  users st !! sid = None →
  handle (EvTyping sid isTyping) st = Ok st [].
Proof. intros Hu. simpl. unfold typing. by rewrite Hu. Qed.

Lemma typing_unregistered_ignored_witness :
  handle (EvTyping "b" true) (after (one_message ++ [EvConnection "b"]))
  = Ok (after (one_message ++ [EvConnection "b"])) [].
Proof.
  apply (typing_unregistered_ignored "b" true (after (one_message ++ [EvConnection "b"]))).
  vm_compute. reflexivity.
Defined.

(** ** Sending *)

Lemma push_capped_last message log : last (push_capped message log) = Some message.
Proof.
  unfold push_capped. destruct (decide _) as [Hlen|_]; [|apply last_snoc].
  destruct log as [|m0 log]; simpl in *.
  - lia.
  - apply last_snoc.
Qed.

(** ** Joining a room *)

(** C7, as the code has it: a [join_room] with the empty name returns at the
    guard: no exception and no error event, the same state (no room, no
    membership) and no emission.  Names made of blanks are not empty for the
    guard; see [join_room_blank_name_creates_room]. *)
Theorem join_room_empty_name_ignored sid stamp st :
  handle (EvJoinRoom sid "" stamp) st = Ok st [].
Proof. reflexivity. Qed.

(** C7 as stated fails: joining the room named by one blank creates that room,
    makes the connection a member of it and emits one [room_notification]. *)
Lemma join_room_blank_name_creates_room :
  ∃ st1 e,
    handle (EvJoinRoom "a" " " 5) (after [EvConnection "a"]) = Ok st1 [e] ∧
    rooms (after [EvConnection "a"]) !! " " = None ∧
    rooms st1 !! " " = Some (mkRoom " " {[ "a" ]}) ∧
    e_payload e = room_notification " " "User joined  " 5 ∧
    e_recipients e = {[ "a" ]}.
Proof.
  eexists _, _. split; [vm_compute; reflexivity|].
  repeat split; vm_compute; reflexivity.
Qed.

(** ** Disconnecting *)

Lemma del_member_absent sid (rs : gmap string Room) :
  (∀ r room, rs !! r = Some room → sid ∉ r_members room) →
  del_member sid <$> rs = rs.
Proof.
  intros Habs. apply map_eq. intros r. rewrite lookup_fmap.
  destruct (rs !! r) as [[n ms]|] eqn:Hr; simpl; [|done].
  unfold del_member; simpl. do 2 f_equal. apply set_eq. intros c.
  rewrite elem_of_difference, elem_of_singleton.
  split; [tauto|]. intros Hc. split; [done|]. intros ->.
  by apply (Habs _ _ Hr).
Qed.

Lemma not_in_channel st sid r : sockets st !! sid = None → sid ∉ channel st r.
Proof.
  intros Hs. unfold channel. rewrite elem_of_dom. intros [rs Hrs].
  apply map_lookup_filter_Some in Hrs as [Hrs _]. congruence.
Qed.

Lemma without_absent sid st :
  users st !! sid = None → typingUsers st !! sid = None →
  sockets st !! sid = None →
  (∀ r room, rooms st !! r = Some room → sid ∉ r_members room) →
  without sid st = st.
Proof.
  intros Hu Ht Hs Hr. destruct st as [u m t r s]; unfold without; cbn in *.
  by rewrite !delete_id, del_member_absent.
Qed.

Lemma disconnect_unregistered sid st :
  users st !! sid = None →
  handle (EvDisconnect sid) st =
    Ok (without sid st)
       [ emit (without sid st) io_emit (user_list (values (users (without sid st))));
         emit (without sid st) io_emit
           (typing_users (values (typingUsers (without sid st)))) ].
Proof.
  intros Hu. cbn [handle]. unfold disconnect.
  change (users (socket_close sid st)) with (users st). by rewrite Hu.
Qed.

(** C8: the first [disconnect] of a connection leaves no entry for it in
    [users], in [typingUsers], in the members of any room or in the
    transport; a second one returns the same state and emits [user_list] and
    [typing_users] only, so no [user_left]. *)
Theorem disconnect_twice sid st :
  ∃ st1 out1,
    handle (EvDisconnect sid) st = Ok st1 out1 ∧
    users st1 !! sid = None ∧
    typingUsers st1 !! sid = None ∧
    (∀ r room, rooms st1 !! r = Some room → sid ∉ r_members room) ∧
    (sid ∉ connected st1) ∧
    (∀ r, sid ∉ channel st1 r) ∧
    handle (EvDisconnect sid) st1 =
      Ok st1 [ emit st1 io_emit (user_list (values (users st1)));
               emit st1 io_emit (typing_users (values (typingUsers st1))) ].
Proof.
  exists (without sid st). eexists. split; [reflexivity|].
  assert (Hu : users (without sid st) !! sid = None) by apply lookup_delete_eq.
  assert (Ht : typingUsers (without sid st) !! sid = None) by apply lookup_delete_eq.
  assert (Hs : sockets (without sid st) !! sid = None) by apply lookup_delete_eq.
  assert (Hr : ∀ r room, rooms (without sid st) !! r = Some room → sid ∉ r_members room).
  { intros r room Hr. cbn in Hr. rewrite lookup_fmap in Hr.
    destruct (rooms st !! r) as [room0|]; simplify_eq/=.
    rewrite elem_of_difference, elem_of_singleton. tauto. }
  repeat split; try done.
  - unfold connected. by apply not_elem_of_dom.
  - intros r. by apply not_in_channel.
  - rewrite (disconnect_unregistered _ _ Hu). by rewrite without_absent.
Qed.

(** ** Registering *)

(** C4, as the code has it: in every reachable state a [user_join] of a
    connection that already has an entry in [users] returns normally, replaces
    the entry by a new one (the new username, rooms reset to [global]) and
    emits [user_list] and [user_joined] to all connected sockets. *)
Theorem user_join_again_replaces st sid username :
  reachable st → is_Some (users st !! sid) →
  ∃ st1,
    handle (EvUserJoin sid username) st =
      Ok st1 [ mkEmit io_emit (user_list (values (users st1))) (connected st1);
               mkEmit io_emit (user_joined username sid) (connected st1) ] ∧
    users st1 !! sid = Some (mkUser username sid {[ "global" ]}).
Proof.
  intros Hst _. destruct (reachable_directory st Hst) as [[g Hg] _].
  exists (mkState (<[sid := mkUser username sid {[ "global" ]}]> (users st))
            (messages st) (typingUsers st)
            (<["global" := add_member sid g]> (rooms st))
            (alter (λ rs, rs ∪ {[ "global" ]}) sid (sockets st))).
  cbn [handle]. unfold user_join.
  change (rooms (socket_join sid "global" (set_users _ st))) with (rooms st).
  rewrite Hg. split; [reflexivity|]. apply lookup_insert_eq.
Qed.

Lemma user_join_again_replaces_witness :
  ∃ st1,
    handle (EvUserJoin "a" "mallory") (after two_users) =
      Ok st1 [ mkEmit io_emit (user_list (values (users st1))) (connected st1);
               mkEmit io_emit (user_joined "mallory" "a") (connected st1) ] ∧
    users st1 !! "a" = Some (mkUser "mallory" "a" {[ "global" ]}).
Proof.
  apply (user_join_again_replaces (after two_users) "a" "mallory").
  - apply reachable_after.
  - vm_compute. eexists. reflexivity.
Defined.

(** C4 as stated fails: the second [user_join] of connection [a] overwrites
    its registration and its two emissions reach the other connection [b]. *)
Lemma user_join_again_overwrites_and_broadcasts :
  ∃ st1 out,
    handle (EvUserJoin "a" "mallory") (after two_users) = Ok st1 out ∧
    users (after two_users) !! "a" = Some (mkUser "alice" "a" {[ "global" ]}) ∧
    users st1 !! "a" = Some (mkUser "mallory" "a" {[ "global" ]}) ∧
    Forall (λ e, e_target e = io_emit ∧ "b" ∈ e_recipients e) out ∧
    length out = 2%nat.
Proof.
  eexists _, _. split; [vm_compute; reflexivity|].
  split; [vm_compute; reflexivity|]. split; [vm_compute; reflexivity|].
  split; [|reflexivity].
  repeat constructor; refine (bool_decide_unpack _ _); vm_compute; exact I.
Qed.

(** ** The message log *)

Lemma length_mark_read messageId sid log :
  length (mark_read messageId sid log) = length log.
Proof.
  induction log as [|m log IH]; simpl; [done|].
  destruct (bool_decide _); simpl; congruence.
Qed.

Lemma length_shift {A} (l : list A) : length (tail l) = pred (length l).
Proof. by destruct l. Qed.

Lemma length_push_capped message log :
  (length log ≤ 100)%nat → (length (push_capped message log) ≤ 100)%nat.
Proof.
  intros Hlen. unfold push_capped.
  destruct (decide _) as [Hover|Hfit]; [|lia].
  rewrite length_shift, length_app; simpl. lia.
Qed.

Lemma push_capped_room message log :
  (length log < 100)%nat → push_capped message log = log ++ [message].
Proof.
  intros Hlen. unfold push_capped. rewrite decide_False; [done|].
  rewrite length_app; simpl. lia.
Qed.

Lemma push_capped_full message log :
  length log = 100%nat → push_capped message log = tail log ++ [message].
Proof.
  intros Hlen. unfold push_capped. rewrite decide_True.
  - by destruct log.
  - rewrite length_app; simpl. lia.
Qed.

Lemma reachable_log_bound st : reachable st → (length (messages st) ≤ 100)%nat.
Proof.
  induction 1 as [|st ev st1 out Hst IH Hen Hh]; [simpl; lia|].
  step_cases Hh; try done.
  - by apply length_push_capped.
  - by rewrite length_mark_read.
Qed.

(** C2: in every reachable state the log holds at most 100 messages, and so
    it does after a further [send_message]; below the capacity the new message
    is appended, and at the capacity the log becomes its former tail followed
    by the new message: the oldest entry, and it alone, is dropped. *)
Theorem message_log_capacity st sid messageData ack now stamp :
  reachable st →
  (length (messages st) ≤ 100)%nat ∧
  ∃ st1 out message,
    handle (EvSendMessage sid messageData ack now stamp) st = Ok st1 out ∧
    (length (messages st1) ≤ 100)%nat ∧
    ((length (messages st) < 100)%nat → messages st1 = messages st ++ [message]) ∧
    (length (messages st) = 100%nat →
       messages st1 = tail (messages st) ++ [message] ∧
       length (messages st1) = 100%nat).
Proof.
  intros Hst. pose proof (reachable_log_bound st Hst) as Hlen.
  split; [done|]. cbn [handle]. unfold send_message.
  set (message := mkMessage _ _ _ _ _ _ _ _).
  assert (Hcap : (length (push_capped message (messages st)) ≤ 100)%nat)
    by by apply length_push_capped.
  destruct (_ && _); eexists _, _, message; (split; [reflexivity|]); cbn;
    (split; [done|]); (split; [apply push_capped_room|]);
    intros Hfull; rewrite (push_capped_full _ _ Hfull);
    (split; [done|]); rewrite length_app, length_shift, Hfull; reflexivity.
Qed.

Example hundred_sends_fill_log :
  m_id <$> messages (after hundred_sends) = Z.of_nat <$> seq 1 100.
Proof. vm_compute. reflexivity. Qed.

Example one_more_evicts_oldest :
  m_id <$> messages (after (hundred_sends ++ [send_at "a" 101]))
  = Z.of_nat <$> seq 2 100.
Proof. vm_compute. reflexivity. Qed.

Lemma message_log_capacity_witness :
  (length (messages (after hundred_sends)) ≤ 100)%nat ∧
  ∃ st1 out message,
    handle (send_at "a" 101) (after hundred_sends) = Ok st1 out ∧
    (length (messages st1) ≤ 100)%nat ∧
    ((length (messages (after hundred_sends)) < 100)%nat →
       messages st1 = messages (after hundred_sends) ++ [message]) ∧
    (length (messages (after hundred_sends)) = 100%nat →
       messages st1 = tail (messages (after hundred_sends)) ++ [message] ∧
       length (messages st1) = 100%nat).
Proof.
  apply (message_log_capacity (after hundred_sends) "a"
           (Some (mkMessageData "hi" None)) false 101 101).
  apply reachable_after.
Defined.

(** ** Message ids *)

Lemma fmap_id_mark_read messageId sid log :
  m_id <$> mark_read messageId sid log = m_id <$> log.
Proof.
  induction log as [|m log IH]; simpl; [done|].
  destruct (bool_decide _); simpl; [done|]. by f_equal.
Qed.

Lemma push_capped_ids message log :
  (m_id <$> push_capped message log) `suffix_of` ((m_id <$> log) ++ [m_id message]).
Proof.
  unfold push_capped. destruct (decide _) as [_|_].
  - rewrite fmap_tail, fmap_snoc.
    destruct ((m_id <$> log) ++ [m_id message]) as [|x l]; simpl; [done|].
    by apply suffix_cons_r.
  - by rewrite fmap_snoc.
Qed.

Lemma handle_ids ev st st1 out :
  handle ev st = Ok st1 out →
  (m_id <$> messages st1) `suffix_of` ((m_id <$> messages st) ++ clock_readings [ev]).
Proof.
  intros Hh. step_cases Hh; rewrite ?app_nil_r; try done.
  - apply push_capped_ids.
  - by rewrite fmap_id_mark_read.
Qed.

(** The ids in the log are the last clock readings, in the order taken. *)
Lemma run_ids st evs st1 out :
  run st evs = Some (st1, out) →
  (m_id <$> messages st1) `suffix_of` ((m_id <$> messages st) ++ clock_readings evs).
Proof.
  revert st out. induction evs as [|ev evs IH]; intros st out Hrun; simpl in Hrun.
  - simplify_eq. by rewrite app_nil_r.
  - destruct (enabled st ev); [|done].
    destruct (handle ev st) as [st2 out2|] eqn:Hh; [|done].
    destruct (run st2 evs) as [[st3 out3]|] eqn:Hr; [|done]. simplify_eq.
    etransitivity; [by eapply IH|].
    change (ev :: evs) with ([ev] ++ evs). unfold clock_readings.
    rewrite omap_app, app_assoc. apply suffix_app. by eapply handle_ids.
Qed.

Lemma StronglySorted_lookup {A} (R : relation A) l i j x y :
  StronglySorted R l → (i < j)%nat → l !! i = Some x → l !! j = Some y → R x y.
Proof.
  intros Hl. revert i j. induction Hl as [|z l Hl IH Hz]; intros i j Hij Hi Hj; [done|].
  destruct j as [|j]; [lia|]. destruct i as [|i]; simpl in *.
  - simplify_eq. rewrite Forall_forall in Hz. apply Hz.
    by eapply list_elem_of_lookup_2.
  - eapply (IH i j); [lia|done..].
Qed.

(** In a run whose readings never go backwards, a message of the log has an
    id no greater than the id of every message after it. *)
Lemma message_ids_nondecreasing evs st out i j m1 m2 :
  run init evs = Some (st, out) →
  StronglySorted Z.le (clock_readings evs) →
  (i < j)%nat → messages st !! i = Some m1 → messages st !! j = Some m2 →
  (m_id m1 ≤ m_id m2)%Z.
Proof.
  intros Hrun Hsorted Hij H1 H2.
  destruct (run_ids _ _ _ _ Hrun) as [k Hk]. simpl in Hk.
  rewrite Hk in Hsorted. apply StronglySorted_app_1_r in Hsorted.
  eapply (StronglySorted_lookup Z.le _ i j); [done..| |];
    by rewrite list_lookup_fmap; erewrite ?H1, ?H2.
Qed.

(** C1 fails on the code: the id is the reading of [Date.now()], so two
    messages appended within one millisecond get the same id.  Here [a] and
    [b] send [first] and [second] at the reading 1000: both are stored under
    the id 1000, the ids are not strictly increasing, and the lookup by id of
    [message_read] finds the first message when asked for the second. *)
Theorem same_millisecond_same_id :
  ∃ m1 m2,
    messages (after colliding_sends) = [m1; m2] ∧
    m_message m1 = Some "first" ∧ m_senderId m1 = "a" ∧
    m_message m2 = Some "second" ∧ m_senderId m2 = "b" ∧
    m_id m1 = 1000 ∧ m_id m2 = 1000 ∧
    ¬ (m_id m1 < m_id m2)%Z ∧
    find_message (m_id m2) (messages (after colliding_sends)) = Some m1.
Proof.
  eexists _, _. split; [vm_compute; reflexivity|].
  repeat (split; [reflexivity|]). split; [simpl; lia|]. vm_compute. reflexivity.
Qed.

(** ** Room membership and its cached view *)

Section membership_lemmas.
Context (rs : gmap string Room) (us : gmap string User)
        (ss : gmap string (gset string)).
Implicit Types c r sid : string.

Lemma member_of_add sid (r0 : string) room c r :
  rs !! r0 = Some room →
  member_of (<[r0 := add_member sid room]> rs) c r ↔
  member_of rs c r ∨ (c = sid ∧ r = r0).
Proof.
  intros Hr0. unfold member_of. split.
  - intros (room1 & Hl & Hc). rewrite lookup_insert in Hl.
    destruct (decide (r0 = r)) as [->|Hne]; simplify_eq/=; [|by eauto].
    apply elem_of_union in Hc as [Hc|Hc]; [by eauto|].
    apply elem_of_singleton in Hc. by right.
  - intros [(room1 & Hl & Hc)|[-> ->]].
    + destruct (decide (r0 = r)) as [->|Hne].
      * simplify_eq. exists (add_member sid room). rewrite lookup_insert_eq.
        split; [done|]. simpl. apply elem_of_union. by left.
      * exists room1. by rewrite lookup_insert_ne.
    + exists (add_member sid room). rewrite lookup_insert_eq.
      split; [done|]. simpl. apply elem_of_union. right. by apply elem_of_singleton.
Qed.

Lemma member_of_new sid (r0 : string) c r :
  rs !! r0 = None →
  member_of (<[r0 := mkRoom r0 {[ sid ]}]> rs) c r ↔
  member_of rs c r ∨ (c = sid ∧ r = r0).
Proof.
  intros Hr0. unfold member_of. split.
  - intros (room1 & Hl & Hc). rewrite lookup_insert in Hl.
    destruct (decide (r0 = r)) as [->|Hne]; simplify_eq/=; [|by eauto].
    apply elem_of_singleton in Hc. by right.
  - intros [(room1 & Hl & Hc)|[-> ->]].
    + destruct (decide (r0 = r)) as [->|Hne]; [congruence|].
      exists room1. by rewrite lookup_insert_ne.
    + eexists. rewrite lookup_insert_eq. split; [done|]. simpl.
      by apply elem_of_singleton.
Qed.

Lemma member_of_del sid (r0 : string) room c r :
  rs !! r0 = Some room →
  member_of (<[r0 := del_member sid room]> rs) c r ↔
  member_of rs c r ∧ ¬ (c = sid ∧ r = r0).
Proof.
  intros Hr0. unfold member_of. split.
  - intros (room1 & Hl & Hc). rewrite lookup_insert in Hl.
    destruct (decide (r0 = r)) as [->|Hne]; simplify_eq/=.
    + apply elem_of_difference in Hc as [Hc Hsid].
      rewrite elem_of_singleton in Hsid. split; [by eauto|]. tauto.
    + split; [by eauto|]. intros [_ ->]. done.
  - intros [(room1 & Hl & Hc) Hnot].
    destruct (decide (r0 = r)) as [->|Hne].
    + simplify_eq. exists (del_member sid room). rewrite lookup_insert_eq.
      split; [done|]. simpl. apply elem_of_difference. split; [done|].
      rewrite elem_of_singleton. tauto.
    + exists room1. by rewrite lookup_insert_ne.
Qed.

Lemma member_of_without sid c r :
  member_of (del_member sid <$> rs) c r ↔ member_of rs c r ∧ c ≠ sid.
Proof.
  unfold member_of. split.
  - intros (room1 & Hl & Hc). rewrite lookup_fmap in Hl.
    destruct (rs !! r) as [room|] eqn:Hr; simplify_eq/=.
    apply elem_of_difference in Hc as [Hc Hsid].
    rewrite elem_of_singleton in Hsid. eauto.
  - intros [(room1 & Hl & Hc) Hne]. exists (del_member sid room1).
    rewrite lookup_fmap, Hl. split; [done|]. simpl.
    apply elem_of_difference. split; [done|]. by rewrite elem_of_singleton.
Qed.

Lemma cached_in_register sid username c r :
  cached_in (<[sid := mkUser username sid {[ "global" ]}]> us) c r ↔
  (c = sid ∧ r = "global") ∨ (c ≠ sid ∧ cached_in us c r).
Proof.
  unfold cached_in. split.
  - intros (u & Hl & Hc). rewrite lookup_insert in Hl.
    destruct (decide (sid = c)) as [->|Hne]; simplify_eq/=.
    + apply elem_of_singleton in Hc. by left.
    + right. split; [done|]. eauto.
  - intros [[-> ->]|[Hne (u & Hl & Hc)]].
    + eexists. rewrite lookup_insert_eq. split; [done|]. simpl.
      by apply elem_of_singleton.
    + exists u. by rewrite lookup_insert_ne.
Qed.

Lemma cached_in_add sid (r0 : string) c r :
  cached_in (alter (add_room r0) sid us) c r ↔
  cached_in us c r ∨ (c = sid ∧ r = r0 ∧ is_Some (us !! sid)).
Proof.
  unfold cached_in. split.
  - intros (u & Hl & Hc). rewrite lookup_alter in Hl.
    destruct (decide (sid = c)) as [->|Hne]; [|by eauto].
    destruct (us !! c) as [u0|] eqn:Hu; simplify_eq/=.
    apply elem_of_union in Hc as [Hc|Hc]; [by eauto|].
    apply elem_of_singleton in Hc. right. eauto.
  - intros [(u & Hl & Hc)|(-> & -> & [u Hu])].
    + destruct (decide (sid = c)) as [->|Hne].
      * exists (add_room r0 u). rewrite lookup_alter_eq, Hl. split; [done|].
        simpl. apply elem_of_union. by left.
      * exists u. by rewrite lookup_alter_ne.
    + exists (add_room r0 u). rewrite lookup_alter_eq, Hu. split; [done|].
      simpl. apply elem_of_union. right. by apply elem_of_singleton.
Qed.

Lemma cached_in_del sid (r0 : string) c r :
  cached_in (alter (del_room r0) sid us) c r ↔
  cached_in us c r ∧ ¬ (c = sid ∧ r = r0).
Proof.
  unfold cached_in. split.
  - intros (u & Hl & Hc). rewrite lookup_alter in Hl.
    destruct (decide (sid = c)) as [->|Hne].
    + destruct (us !! c) as [u0|] eqn:Hu; simplify_eq/=.
      apply elem_of_difference in Hc as [Hc Hr].
      rewrite elem_of_singleton in Hr. split; [by eauto|]. tauto.
    + split; [by eauto|]. intros [-> _]. done.
  - intros [(u & Hl & Hc) Hnot].
    destruct (decide (sid = c)) as [->|Hne].
    + exists (del_room r0 u). rewrite lookup_alter_eq, Hl. split; [done|].
      simpl. apply elem_of_difference. split; [done|].
      rewrite elem_of_singleton. tauto.
    + exists u. by rewrite lookup_alter_ne.
Qed.

Lemma cached_in_without sid c r :
  cached_in (delete sid us) c r ↔ cached_in us c r ∧ c ≠ sid.
Proof.
  unfold cached_in. split.
  - intros (u & Hl & Hc). rewrite lookup_delete in Hl.
    destruct (decide (sid = c)) as [->|Hne]; [done|]. eauto.
  - intros [(u & Hl & Hc) Hne]. exists u. by rewrite lookup_delete_ne.
Qed.

Lemma joined_in_open sid c r :
  joined_in (<[sid := {[ sid ]}]> ss) c r ↔
  (c = sid ∧ r = sid) ∨ (c ≠ sid ∧ joined_in ss c r).
Proof.
  unfold joined_in. split.
  - intros (chans & Hl & Hc). rewrite lookup_insert in Hl.
    destruct (decide (sid = c)) as [->|Hne]; simplify_eq/=.
    + apply elem_of_singleton in Hc. by left.
    + right. eauto.
  - intros [[-> ->]|[Hne (chans & Hl & Hc)]].
    + eexists. rewrite lookup_insert_eq. split; [done|]. by apply elem_of_singleton.
    + exists chans. by rewrite lookup_insert_ne.
Qed.

Lemma joined_in_join sid (r0 : string) c r :
  joined_in (alter (λ chans, chans ∪ {[ r0 ]}) sid ss) c r ↔
  joined_in ss c r ∨ (c = sid ∧ r = r0 ∧ is_Some (ss !! sid)).
Proof.
  unfold joined_in. split.
  - intros (chans & Hl & Hc). rewrite lookup_alter in Hl.
    destruct (decide (sid = c)) as [->|Hne]; [|by eauto].
    destruct (ss !! c) as [chans0|] eqn:Hs; simplify_eq/=.
    apply elem_of_union in Hc as [Hc|Hc]; [by eauto|].
    apply elem_of_singleton in Hc. right. eauto.
  - intros [(chans & Hl & Hc)|(-> & -> & [chans Hs])].
    + destruct (decide (sid = c)) as [->|Hne].
      * eexists. rewrite lookup_alter_eq, Hl. split; [done|].
        apply elem_of_union. by left.
      * exists chans. by rewrite lookup_alter_ne.
    + eexists. rewrite lookup_alter_eq, Hs. split; [done|].
      apply elem_of_union. right. by apply elem_of_singleton.
Qed.

Lemma joined_in_leave sid (r0 : string) c r :
  joined_in (alter (λ chans, chans ∖ {[ r0 ]}) sid ss) c r ↔
  joined_in ss c r ∧ ¬ (c = sid ∧ r = r0).
Proof.
  unfold joined_in. split.
  - intros (chans & Hl & Hc). rewrite lookup_alter in Hl.
    destruct (decide (sid = c)) as [->|Hne].
    + destruct (ss !! c) as [chans0|] eqn:Hs; simplify_eq/=.
      apply elem_of_difference in Hc as [Hc Hr].
      rewrite elem_of_singleton in Hr. split; [by eauto|]. tauto.
    + split; [by eauto|]. intros [-> _]. done.
  - intros [(chans & Hl & Hc) Hnot].
    destruct (decide (sid = c)) as [->|Hne].
    + eexists. rewrite lookup_alter_eq, Hl. split; [done|].
      apply elem_of_difference. split; [done|].
      rewrite elem_of_singleton. tauto.
    + exists chans. by rewrite lookup_alter_ne.
Qed.

Lemma joined_in_close sid c r :
  joined_in (delete sid ss) c r ↔ joined_in ss c r ∧ c ≠ sid.
Proof.
  unfold joined_in. split.
  - intros (chans & Hl & Hc). rewrite lookup_delete in Hl.
    destruct (decide (sid = c)) as [->|Hne]; [done|]. eauto.
  - intros [(chans & Hl & Hc) Hne]. exists chans. by rewrite lookup_delete_ne.
Qed.
End membership_lemmas.

(** The cached rooms are rooms the connection is a member of, in every
    reachable state. *)
Lemma reachable_cached_member st :
  reachable st → ∀ c r, cached_in (users st) c r → member_of (rooms st) c r.
Proof.
  induction 1 as [|st ev st1 out Hst IH Hen Hh].
  { intros c r (u & Hu & _). unfold init in Hu; simpl in Hu.
    by rewrite lookup_empty in Hu. }
  intros c r. specialize (IH c r).
  step_cases Hh; try done.
  - rewrite cached_in_register, member_of_add by done.
    destruct (decide (c = sid)); tauto.
  - rewrite cached_in_add, member_of_add by done. tauto.
  - rewrite cached_in_add, member_of_new by done. tauto.
  - rewrite cached_in_del, member_of_del by done. tauto.
  - rewrite cached_in_without, member_of_without. tauto.
Qed.

Lemma consistent_step c st ev st1 out :
  consistent_for c st → orderly c st ev = true → handle ev st = Ok st1 out →
  consistent_for c st1.
Proof.
  intros Hc Hord Hh r. pose proof (Hc r) as Hcr.
  step_cases Hh; try done.
  - rewrite cached_in_register, member_of_add by done.
    destruct (decide (sid = c)) as [->|Hne]; [|by intuition congruence].
    apply negb_true_iff, bool_decide_eq_false in Hord.
    assert (Hnone : users st !! c = None) by by apply eq_None_not_Some.
    assert (Hnc : ¬ cached_in (users st) c r).
    { intros (u & Hu & _). congruence. }
    tauto.
  - rewrite cached_in_add, member_of_add by done.
    destruct (decide (sid = c)) as [->|Hne]; [|by intuition congruence].
    apply bool_decide_eq_true in Hord. tauto.
  - rewrite cached_in_add, member_of_new by done.
    destruct (decide (sid = c)) as [->|Hne]; [|by intuition congruence].
    apply bool_decide_eq_true in Hord. tauto.
  - rewrite cached_in_del, member_of_del by done. tauto.
  - rewrite cached_in_without, member_of_without. tauto.
Qed.

Lemma consistent_run c st evs st1 out :
  consistent_for c st → run st evs = Some (st1, out) → orderly_run c st evs = true →
  consistent_for c st1.
Proof.
  revert st out. induction evs as [|ev evs IH]; intros st out Hc Hrun Hord;
    simpl in Hrun, Hord.
  - by simplify_eq.
  - destruct (enabled st ev); [|done].
    destruct (handle ev st) as [st2 out2|] eqn:Hh; [|done].
    destruct (run st2 evs) as [[st3 out3]|] eqn:Hr; [|done]. simplify_eq.
    apply andb_true_iff in Hord as [Hord1 Hord2].
    eapply IH; [|done..]. by eapply consistent_step.
Qed.

Lemma consistent_init : consistent init.
Proof.
  intros c r. unfold member_of, cached_in, init; simpl. split.
  - intros (room & Hr & Hc). apply lookup_singleton_Some in Hr as [_ <-].
    simpl in Hc. by apply not_elem_of_empty in Hc.
  - intros (u & Hu & _). by rewrite lookup_empty in Hu.
Qed.

(** C3, as the code has it: take a connection that registers once, before
    it joins rooms.  After every event of a run, whatever the other
    connections do, it is in the members of a room exactly when that room is
    in the rooms cached for it.  A connection that does not keep that order
    can be a member of rooms its cache misses; see
    [join_before_register_breaks_cache] and [register_again_resets_cache]. *)
Theorem membership_cache_consistent evs st out c r :
  run init evs = Some (st, out) → orderly_run c init evs = true →
  member_of (rooms st) c r ↔ cached_in (users st) c r.
Proof.
  intros Hrun Hord.
  apply (consistent_run c init evs st out (consistent_init c) Hrun Hord).
Qed.

Example rooms_session_state :
  rooms (after rooms_session)
  = {[ "global" := mkRoom "global" {[ "b" ]}; "dev" := mkRoom "dev" ∅;
       "ops" := mkRoom "ops" {[ "b" ]} ]}
  ∧ u_rooms <$> users (after rooms_session) = {[ "b" := {[ "global"; "ops" ]} ]}.
Proof. split; vm_compute; reflexivity. Qed.

(** In [stray_client] connection [b] joins a room before it registers and
    registers twice, and [a] keeps to the order. *)
Example stray_client_orders :
  orderly_run "a" init stray_client = true ∧ orderly_run "b" init stray_client = false.
Proof. split; vm_compute; reflexivity. Qed.

Lemma membership_cache_consistent_witness :
  member_of (rooms (after stray_client)) "a" "dev"
  ↔ cached_in (users (after stray_client)) "a" "dev".
Proof.
  apply (membership_cache_consistent stray_client (after stray_client)
           (emitted stray_client) "a" "dev").
  - vm_compute. reflexivity.
  - vm_compute. reflexivity.
Defined.

(** A second [user_join] resets the cache to [global] and leaves the
    memberships. *)
Example register_again_resets_cache :
  member_of (rooms (after (dev_room ++ [EvUserJoin "b" "bobby"]))) "b" "dev" ∧
  ¬ cached_in (users (after (dev_room ++ [EvUserJoin "b" "bobby"]))) "b" "dev".
Proof.
  split.
  - exists (mkRoom "dev" {[ "b" ]}). split; [vm_compute; reflexivity|].
    simpl. by apply elem_of_singleton.
  - intros (u & Hu & Hin). vm_compute in Hu. simplify_eq.
    revert Hin. refine (bool_decide_unpack _ _). vm_compute. exact I.
Qed.

(** C3 as stated fails: a connection that joins a room before it registers is
    put in the members of the room, and no rooms are cached for it. *)
Lemma join_before_register_breaks_cache :
  run init [EvConnection "a"; EvJoinRoom "a" "dev" 1] <> None ∧
  ¬ consistent (after [EvConnection "a"; EvJoinRoom "a" "dev" 1]).
Proof.
  split; [by vm_compute|].
  intros Hc. destruct (Hc "a" "dev") as [Hmc _].
  destruct Hmc as (u & Hu & _).
  - exists (mkRoom "dev" {[ "a" ]}). split; [vm_compute; reflexivity|].
    simpl. by apply elem_of_singleton.
  - vm_compute in Hu. discriminate.
Qed.

(** ** Delivery of a sent message *)

Lemma elem_of_channel st c r : c ∈ channel st r ↔ joined_in (sockets st) c r.
Proof.
  unfold channel, joined_in. rewrite elem_of_dom. split.
  - intros [chans Hc]. apply map_lookup_filter_Some in Hc as [Hl Hr]. eauto.
  - intros (chans & Hl & Hr). exists chans. by apply map_lookup_filter_Some.
Qed.

(** The channels of the transport follow the room directory, apart from the
    channel every socket has under its own id. *)
Lemma reachable_channels st :
  reachable st →
  ∀ c r, r ≠ c → joined_in (sockets st) c r ↔ member_of (rooms st) c r.
Proof.
  induction 1 as [|st ev st1 out Hst IH Hen Hh].
  { intros c r _. pose proof (consistent_init c r) as Hcr.
    unfold joined_in, cached_in, init in *; simpl in *. rewrite Hcr.
    split; intros (x & Hx & _); by rewrite lookup_empty in Hx. }
  intros c r Hne. specialize (IH c r Hne).
  pose proof (reachable_connected st Hst) as [_ Hmem].
  step_cases Hh; try done.
  - apply andb_true_iff in Hen as [Hfresh _]. apply bool_decide_eq_true in Hfresh.
    rewrite joined_in_open.
    assert (Hnm : c = sid → ¬ member_of (rooms st) c r).
    { intros -> (room & Hr & Hc). apply Hfresh. eauto. }
    destruct (decide (c = sid)); [subst; tauto|tauto].
  - apply bool_decide_eq_true in Hen. unfold connected in Hen. apply elem_of_dom in Hen.
    rewrite joined_in_join, member_of_add by done. tauto.
  - apply bool_decide_eq_true in Hen. unfold connected in Hen. apply elem_of_dom in Hen.
    rewrite joined_in_join, member_of_add by done. tauto.
  - apply bool_decide_eq_true in Hen. unfold connected in Hen. apply elem_of_dom in Hen.
    rewrite joined_in_join, member_of_new by done. tauto.
  - rewrite joined_in_leave, member_of_del by done. tauto.
  - rewrite joined_in_close, member_of_without. tauto.
Qed.

(** A message sent to a room of the directory whose name is not the id of a
    connected socket goes to the members of the room, and a message sent to a
    room that is neither in the directory nor a name of [Object.prototype]
    goes to every connected socket. *)
Lemma send_message_delivery st sid messageData ack now stamp :
  reachable st →
  let r := target_room messageData in
  ∃ st1 acks e,
    handle (EvSendMessage sid messageData ack now stamp) st = Ok st1 (acks ++ [e]) ∧
    (∀ room, rooms st !! r = Some room → r ∉ connected st →
       e_target e = io_to r ∧ e_recipients e = r_members room) ∧
    (rooms st !! r = None → inherited r = false →
       e_target e = io_emit ∧ e_recipients e = connected st).
Proof.
  intros Hst r. cbn [handle]. unfold send_message.
  set (message := mkMessage _ _ _ _ _ _ _ _).
  set (st1 := set_messages _ st).
  change (rooms st1) with (rooms st). change (m_room message) with r.
  destruct (negb (bool_decide (r = "")) && truthy_at (rooms st) r) eqn:Hcond;
    eexists _, _, _; (split; [reflexivity|]); simpl.
  - split.
    + intros room Hr Hnc. split; [done|]. apply set_eq. intros c.
      change (channel st1 r) with (channel st r). rewrite elem_of_channel.
      pose proof (reachable_connected st Hst) as [_ Hmem].
      split.
      * intros Hj. assert (r ≠ c).
        { intros ->. destruct Hj as (chans & Hl & _). apply Hnc.
          apply elem_of_dom. eauto. }
        apply (reachable_channels st Hst c r) in Hj as (room1 & Hr1 & Hc); [|done].
        by simplify_eq.
      * intros Hc. assert (r ≠ c) by (intros ->; eauto).
        apply (reachable_channels st Hst c r); [done|]. exists room. eauto.
    + intros Hr Hin. apply andb_true_iff in Hcond as [_ Ht].
      unfold truthy_at in Ht. rewrite Hr, Hin in Ht.
      rewrite bool_decide_eq_false_2 in Ht; [done|]. by intros [??].
  - split; [|done].
    intros room Hr _. apply andb_false_iff in Hcond as [Hempty|Ht].
    + apply negb_false_iff, bool_decide_eq_true in Hempty.
      destruct (reachable_directory st Hst) as [_ _].
      exfalso. subst r. unfold target_room in Hempty.
      repeat case_match; simplify_eq.
    + by rewrite (truthy_at_own _ _ _ Hr) in Ht.
Qed.

Lemma target_room_nonempty messageData : target_room messageData ≠ "".
Proof. unfold target_room. by repeat case_match. Qed.

Lemma channel_members st r room :
  reachable st → rooms st !! r = Some room → r ∉ connected st →
  channel st r = r_members room.
Proof.
  intros Hst Hr Hnc. apply set_eq. intros c. rewrite elem_of_channel.
  pose proof (reachable_connected st Hst) as [_ Hmem]. split.
  - intros Hj. assert (r ≠ c).
    { intros ->. destruct Hj as (chans & Hl & _). apply Hnc.
      apply elem_of_dom. eauto. }
    apply (reachable_channels st Hst c r) in Hj as (room1 & Hr1 & Hc); [|done].
    by simplify_eq.
  - intros Hc. assert (r ≠ c) by (intros ->; eauto).
    apply (reachable_channels st Hst c r); [done|]. exists room. eauto.
Qed.

(** C10: a [send_message] of a connection without an entry in [users] is
    carried out like any other.  The message, with sender [Anonymous], becomes
    the last entry of the log; after the acknowledgement, if a callback came,
    one [receive_message] is emitted whose payload names the sender
    [Anonymous]; it goes to the channel of the target room when [rooms] is
    truthy at that name and to every connected socket otherwise.  In a
    reachable state that is: to the members of the room, for a room of the
    directory that is not named like a socket, and to everybody for a name
    that is neither in the directory nor inherited. *)
Theorem send_unregistered_anonymous sid messageData ack now stamp st :
  users st !! sid = None →
  ∃ st1 e,
    handle (EvSendMessage sid messageData ack now stamp) st
      = Ok st1 ((if ack then [mkEmit (ack_to sid) (ack_out true now) {[ sid ]}] else [])
                ++ [e]) ∧
    last (messages st1)
      = Some (mkMessage (md_message <$> messageData) now "Anonymous" sid stamp
                        (target_room messageData) ∅ ∅) ∧
    e_payload e
      = receive_message
          (mkMessageView (md_message <$> messageData) now "Anonymous" sid stamp
                         (target_room messageData)) ∧
    e_target e
      = (if truthy_at (rooms st) (target_room messageData)
         then io_to (target_room messageData) else io_emit) ∧
    e_recipients e
      = (if truthy_at (rooms st) (target_room messageData)
         then channel st (target_room messageData) else connected st) ∧
    (reachable st →
     (∀ room, rooms st !! target_room messageData = Some room →
              target_room messageData ∉ connected st →
              e_target e = io_to (target_room messageData) ∧
              e_recipients e = r_members room) ∧
     (rooms st !! target_room messageData = None →
      inherited (target_room messageData) = false →
      e_target e = io_emit ∧ e_recipients e = connected st)).
Proof.
  intros Hu. cbn [handle]. unfold send_message, username_or. rewrite Hu.
  set (r := target_room messageData).
  set (message := mkMessage _ _ _ _ _ _ _ _).
  change (m_room message) with r.
  change (rooms (set_messages (push_capped message) st)) with (rooms st).
  rewrite (bool_decide_eq_false_2 (r = "")) by apply target_room_nonempty.
  cbn [negb andb].
  destruct (truthy_at (rooms st) r) eqn:Ht; eexists _, _;
    (split; [destruct ack; reflexivity|]);
    (split; [exact (push_capped_last message (messages st))|]).
  all: do 3 (split; [reflexivity|]).
  all: intros Hst; cbn [e_target e_recipients emit recipients]; split.
  - intros room Hr Hnc. split; [done|]. exact (channel_members st r room Hst Hr Hnc).
  - intros Hr Hin. unfold truthy_at in Ht. rewrite Hr, Hin in Ht.
    rewrite bool_decide_eq_false_2 in Ht; [done|]. by intros [??].
  - intros room Hr _. by rewrite (truthy_at_own _ _ _ Hr) in Ht.
  - done.
Qed.

Lemma send_unregistered_anonymous_witness :
  ∃ st1 e,
    handle (EvSendMessage "b" (Some (mkMessageData "hello" None)) true 2000 2001)
           (after (two_users ++ [EvConnection "c"; EvDisconnect "b"; EvConnection "b"]))
      = Ok st1 ([mkEmit (ack_to "b") (ack_out true 2000) {[ "b" ]}] ++ [e]) ∧
    last (messages st1)
      = Some (mkMessage (Some "hello") 2000 "Anonymous" "b" 2001 "global" ∅ ∅) ∧
    e_payload e
      = receive_message (mkMessageView (Some "hello") 2000 "Anonymous" "b" 2001 "global") ∧
    e_target e = io_to "global" ∧
    e_recipients e = {[ "a" ]}.
Proof.
  destruct (send_unregistered_anonymous "b" (Some (mkMessageData "hello" None)) true
              2000 2001
              (after (two_users ++ [EvConnection "c"; EvDisconnect "b"; EvConnection "b"])))
    as (st1 & e & Hh & Hlast & Hp & Ht & Hr & _).
  - vm_compute. reflexivity.
  - exists st1, e. split; [exact Hh|]. split; [exact Hlast|]. split; [exact Hp|].
    split.
    + rewrite Ht. vm_compute. reflexivity.
    + rewrite Hr. vm_compute. reflexivity.
Defined.

(** C5 fails on the code where the object [rooms] is read under a name it
    inherits: [constructor] is not a room of the directory, yet
    [rooms[message.room]] is truthy, the message is emitted to the channel of
    that name, and nobody receives it, neither the sender nor the other
    connected socket. *)
Theorem send_to_inherited_name_reaches_nobody :
  ∃ st1 e,
    handle (EvSendMessage "b" (Some (mkMessageData "hi" (Some "constructor")))
                          false 1000 1000) (after two_users) = Ok st1 [e] ∧
    rooms (after two_users) !! "constructor" = None ∧
    connected (after two_users) = {[ "a"; "b" ]} ∧
    e_target e = io_to "constructor" ∧
    e_recipients e = ∅.
Proof.
  eexists _, _. split; [vm_compute; reflexivity|].
  repeat split; vm_compute; reflexivity.
Qed.

(** The same handler reaches a socket that is not a member when the room is
    named by the id of that socket. *)
Example send_to_room_named_by_socket_id :
  ∃ st1 e,
    handle (EvSendMessage "b" (Some (mkMessageData "hi" (Some "a"))) false 1000 1000)
           (after (two_users ++ [EvJoinRoom "b" "a" 1])) = Ok st1 [e] ∧
    rooms (after (two_users ++ [EvJoinRoom "b" "a" 1])) !! "a"
      = Some (mkRoom "a" {[ "b" ]}) ∧
    e_target e = io_to "a" ∧
    e_recipients e = {[ "a"; "b" ]}.
Proof.
  eexists _, _. split; [vm_compute; reflexivity|].
  repeat split; vm_compute; reflexivity.
Qed.

(** Joining or leaving a room under an inherited name reads [members] of a
    value that has none. *)
Example join_room_inherited_name_throws :
  handle (EvJoinRoom "a" "constructor" 1) (after [EvConnection "a"]) = TypeError
  ∧ handle (EvLeaveRoom "a" "toString" 1) (after [EvConnection "a"]) = TypeError.
Proof. split; vm_compute; reflexivity. Qed.

(** * Further properties of the handlers and the query routes *)

(** ** Exceptions *)

Lemma inherited_empty : inherited "" = false.
Proof. reflexivity. Qed.



(** ** What the log retains *)

Lemma length_push_capped_min message log :
  (length log ≤ 100)%nat →
  length (push_capped message log) = (100 `min` (length log + 1))%nat.
Proof.
  intros Hlen. unfold push_capped.
  destruct (decide _) as [Hover|Hfit].
  - rewrite length_app in Hover. rewrite length_shift, length_app.
    cbn [length] in *. lia.
  - rewrite length_app in Hfit. rewrite length_app. cbn [length] in *. lia.
Qed.

Lemma handle_log_length ev st st1 out :
  handle ev st = Ok st1 out → (length (messages st) ≤ 100)%nat →
  length (messages st1)
  = (100 `min` (length (messages st) + length (clock_readings [ev])))%nat.
Proof.
  intros Hh Hlen. apply handle_effect in Hh.
  inversion Hh; subst; clear Hh; cbn -[Nat.min push_capped] in *; try lia.
  - by apply length_push_capped_min.
  - rewrite length_mark_read. lia.
Qed.

Lemma run_log_length st evs st1 out :
  run st evs = Some (st1, out) → (length (messages st) ≤ 100)%nat →
  length (messages st1)
  = (100 `min` (length (messages st) + length (clock_readings evs)))%nat.
Proof.
  revert st out. induction evs as [|ev evs IH]; intros st out Hrun Hlen; simpl in Hrun.
  - simplify_eq. cbn -[Nat.min]. lia.
  - destruct (enabled st ev); [|done].
    destruct (handle ev st) as [st2 out2|] eqn:Hh; [|done].
    destruct (run st2 evs) as [[st3 out3]|] eqn:Hr; [|done]. simplify_eq.
    pose proof (handle_log_length _ _ _ _ Hh Hlen) as Hstep.
    rewrite (IH st2 out3 Hr) by lia. rewrite Hstep.
    change (ev :: evs) with ([ev] ++ evs). unfold clock_readings in *.
    rewrite omap_app, length_app. lia.
Qed.

(** X2: after any run from the initial state the ids in the log are the
    clock readings of the last 100 [send_message] events, in the order of the
    events; the readings before them are gone. *)
Theorem log_retains_last_readings evs st out :
  run init evs = Some (st, out) →
  m_id <$> messages st
  = drop (length (clock_readings evs) - 100) (clock_readings evs).
Proof.
  intros Hrun.
  pose proof (run_log_length _ _ _ _ Hrun) as Hlen. cbn -[Nat.min] in Hlen.
  specialize (Hlen ltac:(lia)).
  destruct (run_ids _ _ _ _ Hrun) as [k Hk]. simpl in Hk.
  assert (Hk' : length (clock_readings evs) = (length k + length (messages st))%nat).
  { rewrite Hk, length_app, length_fmap. done. }
  rewrite Hk at 2.
  replace (length (clock_readings evs) - 100)%nat with (length k) by lia.
  by rewrite drop_app_length.
Qed.

Lemma log_retains_last_readings_witness :
  m_id <$> messages (after (hundred_sends ++ [send_at "a" 101; send_at "a" 102]))
  = drop (length (clock_readings (hundred_sends ++ [send_at "a" 101; send_at "a" 102])) - 100)
         (clock_readings (hundred_sends ++ [send_at "a" 101; send_at "a" 102])).
Proof.
  apply (log_retains_last_readings _ _
           (emitted (hundred_sends ++ [send_at "a" 101; send_at "a" 102]))).
  vm_compute. reflexivity.
Defined.

Lemma Forall_push_capped (P : Message → Prop) message log :
  P message → Forall P log → Forall P (push_capped message log).
Proof.
  intros Hm Hlog. unfold push_capped.
  assert (Hall : Forall P (log ++ [message])).
  { apply Forall_app. split; [done|]. by constructor. }
  destruct (decide _); [|done]. by apply Forall_tail.
Qed.

Lemma Forall_mark_read (P : Message → Prop) messageId sid log :
  (∀ m, P m → P (add_reader sid m)) →
  Forall P log → Forall P (mark_read messageId sid log).
Proof.
  intros Hadd. induction 1 as [|m log Hm Hlog IH]; simpl; [done|].
  destruct (bool_decide _); constructor; auto.
  by apply (Hadd m).
Qed.

(** X3: [deliveredTo] is never written and [room] is never empty: every
    message of the log of a reachable state has an empty [deliveredTo] set
    and a non-empty room name. *)
Theorem stored_messages_shape st m :
  reachable st → m ∈ messages st → m_deliveredTo m = ∅ ∧ m_room m ≠ "".
Proof.
  intros Hst. revert m. apply Forall_forall.
  induction Hst as [|st ev st1 out Hst IH Hen Hh]; [by constructor|].
  step_cases Hh; try done.
  - apply Forall_push_capped; [|done]. simpl.
    split; [done|]. apply target_room_nonempty.
  - by apply Forall_mark_read.
Qed.

Lemma stored_messages_shape_witness :
  ∃ m, last (messages (after one_message)) = Some m ∧
       m_deliveredTo m = ∅ ∧ m_room m ≠ "".
Proof.
  eexists. split; [vm_compute; reflexivity|].
  apply (stored_messages_shape (after one_message)).
  - apply reachable_after.
  - apply (list_elem_of_lookup_2 _ 0%nat). vm_compute. reflexivity.
Defined.

(** ** Read receipts on retained messages *)

Lemma add_reader_idemp sid m : add_reader sid (add_reader sid m) = add_reader sid m.
Proof.
  unfold add_reader; simpl. f_equal. apply set_eq. intros c.
  rewrite !elem_of_union. tauto.
Qed.

Lemma mark_read_idemp messageId sid log :
  mark_read messageId sid (mark_read messageId sid log) = mark_read messageId sid log.
Proof.
  induction log as [|m log IH]; simpl; [done|].
  destruct (bool_decide (m_id m = messageId)) eqn:Hid; simpl; rewrite Hid.
  - f_equal. apply (add_reader_idemp sid m).
  - by f_equal.
Qed.

Lemma find_message_mark_read messageId sid log :
  find_message messageId (mark_read messageId sid log)
  = add_reader sid <$> find_message messageId log.
Proof.
  unfold find_message. induction log as [|m log IH]; simpl; [done|].
  destruct (bool_decide (m_id m = messageId)) eqn:Hid; simpl; by rewrite Hid.
Qed.

Lemma mark_read_first messageId sid log msg :
  find_message messageId log = Some msg →
  ∃ front back,
    log = front ++ msg :: back ∧
    Forall (λ m, m_id m ≠ messageId) front ∧
    m_id msg = messageId ∧
    mark_read messageId sid log = front ++ add_reader sid msg :: back.
Proof.
  unfold find_message. induction log as [|m log IH]; simpl; [done|].
  destruct (bool_decide (m_id m = messageId)) eqn:Hid.
  - intros [= ->]. apply bool_decide_eq_true in Hid.
    exists [], log. by repeat split.
  - intros Hfind. apply bool_decide_eq_false in Hid.
    destruct (IH Hfind) as (front & back & -> & Hbefore & Hmsg & Hmark).
    exists (m :: front), back. repeat split; [by constructor|done|].
    simpl. by rewrite Hmark.
Qed.

(** X4: a receipt for an id that is retained is recorded on the first message
    of the log with that id and on no other: the reader is added to its
    [readBy], every other message stays as it is, and one [message_read] with
    the reader's id (and username, if it has one) goes to the channel named
    by that message's [senderId]. *)
Theorem message_read_marks_first sid messageId st msg :
  find_message messageId (messages st) = Some msg →
  ∃ front back st1,
    messages st = front ++ msg :: back ∧
    Forall (λ m, m_id m ≠ messageId) front ∧
    handle (EvMessageRead sid (Some messageId)) st
      = Ok st1 [ mkEmit (io_to (m_senderId msg))
                   (message_read_out messageId sid (u_username <$> users st !! sid))
                   (channel st (m_senderId msg)) ] ∧
    messages st1 = front ++ add_reader sid msg :: back ∧
    sid ∈ m_readBy (add_reader sid msg).
Proof.
  intros Hfind.
  destruct (mark_read_first messageId sid _ _ Hfind)
    as (front & back & Hlog & Hbefore & Hid & Hmark).
  exists front, back, (set_messages (mark_read messageId sid) st).
  split; [done|]. split; [done|]. split.
  - cbn [handle]. unfold message_read. by rewrite Hfind.
  - split; [done|]. simpl. apply elem_of_union. right. by apply elem_of_singleton.
Qed.

Lemma message_read_marks_first_witness :
  ∃ msg front back st1,
    find_message 1000 (messages (after same_millisecond)) = Some msg ∧
    messages (after same_millisecond) = front ++ msg :: back ∧
    Forall (λ m, m_id m ≠ 1000) front ∧
    handle (EvMessageRead "a" (Some 1000)) (after same_millisecond)
      = Ok st1 [ mkEmit (io_to (m_senderId msg))
                   (message_read_out 1000 "a"
                      (u_username <$> users (after same_millisecond) !! "a"))
                   (channel (after same_millisecond) (m_senderId msg)) ] ∧
    messages st1 = front ++ add_reader "a" msg :: back ∧
    "a" ∈ m_readBy (add_reader "a" msg).
Proof.
  eexists. 
  assert (Hfind : find_message 1000 (messages (after same_millisecond))
                  = Some (mkMessage (Some "hi") 1000 "alice" "a" 1000 "global" ∅ ∅))
    by (vm_compute; reflexivity).
  destruct (message_read_marks_first "a" 1000 (after same_millisecond) _ Hfind)
    as (front & back & st1 & H).
  exists front, back, st1. split; [exact Hfind|exact H].
Defined.

(** X5: repeating a receipt changes nothing more: the second [message_read]
    of the same connection for the same id returns the state the first one
    left and emits what the first one emitted. *)
Theorem message_read_twice sid messageId st st1 out :
  handle (EvMessageRead sid (Some messageId)) st = Ok st1 out →
  handle (EvMessageRead sid (Some messageId)) st1 = Ok st1 out.
Proof.
  cbn [handle]. unfold message_read.
  destruct (find_message messageId (messages st)) as [msg|] eqn:Hfind.
  - intros [= <- <-]. cbn [messages set_messages].
    rewrite find_message_mark_read, Hfind. cbn [fmap option_fmap option_map].
    unfold set_messages; cbn [messages users typingUsers rooms sockets].
    by rewrite mark_read_idemp.
  - intros [= <- <-]. by rewrite Hfind.
Qed.

Lemma message_read_twice_witness :
  ∃ st1 out,
    handle (EvMessageRead "b" (Some 1000)) (after (one_message ++ [EvConnection "b"]))
      = Ok st1 out ∧
    handle (EvMessageRead "b" (Some 1000)) st1 = Ok st1 out ∧ length out = 1%nat.
Proof.
  eexists _, _. split; [vm_compute; reflexivity|]. split; [|reflexivity].
  apply (message_read_twice "b" 1000 (after (one_message ++ [EvConnection "b"]))).
  vm_compute. reflexivity.
Defined.

Lemma grown_refl m : grown m m.
Proof. by repeat split. Qed.

Lemma grown_add_reader sid m : grown m (add_reader sid m).
Proof.
  repeat split. simpl. intros c Hc. apply elem_of_union. by left.
Qed.

Lemma Forall2_grown_refl log : Forall2 grown log log.
Proof. induction log; constructor; [apply grown_refl|done]. Qed.

Lemma Forall2_grown_mark_read messageId sid log :
  Forall2 grown log (mark_read messageId sid log).
Proof.
  induction log as [|m log IH]; simpl; [constructor|].
  destruct (bool_decide _); constructor; try done.
  - apply grown_add_reader.
  - apply Forall2_grown_refl.
Qed.

(** X6: no event other than [send_message] adds, removes, reorders or
    rewrites a stored message; the only change is that [readBy] sets can
    gain readers. *)
Theorem stored_messages_only_gain_readers ev st st1 out :
  handle ev st = Ok st1 out → id_clock ev = None →
  Forall2 grown (messages st) (messages st1).
Proof.
  intros Hh Hev. step_cases Hh; try done; try apply Forall2_grown_refl.
  apply Forall2_grown_mark_read.
Qed.

Lemma stored_messages_only_gain_readers_witness :
  ∃ st1 out,
    handle (EvMessageRead "a" (Some 1000)) (after same_millisecond) = Ok st1 out ∧
    Forall2 grown (messages (after same_millisecond)) (messages st1).
Proof.
  eexists _, _. split; [vm_compute; reflexivity|].
  eapply (stored_messages_only_gain_readers (EvMessageRead "a" (Some 1000))
            (after same_millisecond)).
  - vm_compute. reflexivity.
  - reflexivity.
Defined.

(** ** The query routes *)

Lemma Forall2_grown_view log log1 : Forall2 grown log log1 → view <$> log1 = view <$> log.
Proof.
  induction 1 as [|m m1 log log1 (Hv & _) _ IH]; simpl; [done|]. by f_equal.
Qed.

(** X7: the answer of [/api/messages] changes with [send_message] only:
    after any other event, read receipts included, the route returns what it
    returned before. *)
Theorem api_messages_changes_on_send_only ev st st1 out :
  handle ev st = Ok st1 out → id_clock ev = None →
  api_messages st1 = api_messages st.
Proof.
  intros Hh Hev. unfold api_messages. apply Forall2_grown_view.
  step_cases Hh; try done; try apply Forall2_grown_refl.
  apply Forall2_grown_mark_read.
Qed.

Lemma api_messages_changes_on_send_only_witness :
  ∃ st1 out,
    handle (EvMessageRead "a" (Some 1000)) (after one_message) = Ok st1 out ∧
    messages st1 ≠ messages (after one_message) ∧
    api_messages st1 = api_messages (after one_message).
Proof.
  eexists _, _. split; [vm_compute; reflexivity|]. split; [by vm_compute|].
  eapply (api_messages_changes_on_send_only (EvMessageRead "a" (Some 1000)) (after one_message)).
  - vm_compute. reflexivity.
  - reflexivity.
Defined.

(** ** The registry *)

Lemma reachable_user_ids st c u : reachable st → users st !! c = Some u → u_id u = c.
Proof.
  intros Hst. revert c u.
  induction Hst as [|st ev st1 out Hst IH Hen Hh]; intros c u Hu.
  { unfold init in Hu; simpl in Hu. by rewrite lookup_empty in Hu. }
  step_cases Hh; eauto.
  - rewrite lookup_insert in Hu. destruct (decide (sid = c)); simplify_eq/=; eauto.
  - rewrite lookup_alter in Hu. destruct (decide (sid = c)); [|by eauto]. subst.
    destruct (users st !! c) as [u0|] eqn:Hu0; simplify_eq/=. eauto.
  - rewrite lookup_alter in Hu. destruct (decide (sid = c)); [|by eauto]. subst.
    destruct (users st !! c) as [u0|] eqn:Hu0; simplify_eq/=. eauto.
  - rewrite lookup_alter in Hu. destruct (decide (sid = c)); [|by eauto]. subst.
    destruct (users st !! c) as [u0|] eqn:Hu0; simplify_eq/=. eauto.
  - rewrite lookup_delete in Hu. destruct (decide (sid = c)); [done|]. eauto.
Qed.

(** X8: in a reachable state [/api/users] lists no id twice, and every user
    it lists is the entry of [users] under its own [id], which is the id of a
    connected socket. *)
Theorem api_users_unique st :
  reachable st →
  NoDup (u_id <$> api_users st) ∧
  ∀ u, u ∈ api_users st → users st !! u_id u = Some u ∧ u_id u ∈ connected st.
Proof.
  intros Hst. unfold api_users, values.
  assert (Hkeys : ∀ ku, ku ∈ map_to_list (users st) → u_id ku.2 = ku.1).
  { intros [k u] Hku. apply elem_of_map_to_list in Hku.
    by apply (reachable_user_ids st k u). }
  split.
  - rewrite <- list_fmap_compose.
    rewrite (list_fmap_ext (u_id ∘ snd) fst (map_to_list (users st))).
    + apply NoDup_fst_map_to_list.
    + intros i ku Hi. apply Hkeys. by eapply list_elem_of_lookup_2.
  - intros u Hu. apply list_elem_of_fmap in Hu as ([k u0] & -> & Hku).
    pose proof (Hkeys _ Hku) as Hid. simpl in *.
    apply elem_of_map_to_list in Hku. subst k. split; [done|].
    destruct (reachable_connected st Hst) as [Hconn _]. apply Hconn. eauto.
Qed.

Lemma api_users_unique_witness :
  NoDup (u_id <$> api_users (after two_users)) ∧
  ∀ u, u ∈ api_users (after two_users) →
       users (after two_users) !! u_id u = Some u ∧ u_id u ∈ connected (after two_users).
Proof. apply (api_users_unique (after two_users)). apply reachable_after. Defined.

(** X9: in a reachable state every room member is a connected socket, and so
    is every connection with an entry in [users] or in [typingUsers]; a typing
    entry belongs to a connection that has an entry in [users]. *)
Theorem stores_hold_connected_sockets st c :
  reachable st →
  (is_Some (users st !! c) → c ∈ connected st) ∧
  (∀ r, member_of (rooms st) c r → c ∈ connected st) ∧
  (is_Some (typingUsers st !! c) → is_Some (users st !! c)).
Proof.
  intros Hst. destruct (reachable_connected st Hst) as [Hu Hm].
  split; [by apply Hu|]. split.
  { intros r (room & Hr & Hc). eauto. }
  clear Hu Hm. revert c.
  induction Hst as [|st ev st1 out Hst IH Hen Hh]; intros c [n Hn].
  { unfold init in Hn; simpl in Hn. by rewrite lookup_empty in Hn. }
  step_cases Hh; eauto.
  - rewrite lookup_insert. destruct (decide (sid = c)); eauto.
  - rewrite lookup_insert in Hn. destruct (decide (sid = c)); simplify_eq; eauto.
  - rewrite lookup_delete in Hn. destruct (decide (sid = c)); simplify_eq; eauto.
  - apply lookup_alter_is_Some. eauto.
  - apply lookup_alter_is_Some. eauto.
  - apply lookup_alter_is_Some. eauto.
  - rewrite lookup_delete in Hn. destruct (decide (sid = c)); [done|].
    rewrite lookup_delete_ne by done. eauto.
Qed.

Lemma stores_hold_connected_sockets_witness :
  (is_Some (users (after rooms_session) !! "b") → "b" ∈ connected (after rooms_session)) ∧
  (∀ r, member_of (rooms (after rooms_session)) "b" r → "b" ∈ connected (after rooms_session)) ∧
  (is_Some (typingUsers (after rooms_session) !! "b") → is_Some (users (after rooms_session) !! "b")).
Proof.
  apply (stores_hold_connected_sockets (after rooms_session) "b"). apply reachable_after.
Defined.

(** ** Typing *)

(** X10: for a registered connection that is not typing, [typing(true)]
    stores its username under its id and emits the new list of typing
    usernames to every connected socket; a following [typing(false)] gives
    back the state it started from and emits the list as it was before. *)
Theorem typing_start_stop sid st u :
  users st !! sid = Some u → typingUsers st !! sid = None →
  ∃ st1,
    handle (EvTyping sid true) st
      = Ok st1 [ mkEmit io_emit
                   (typing_users (values (<[sid := u_username u]> (typingUsers st))))
                   (connected st) ] ∧
    typingUsers st1 = <[sid := u_username u]> (typingUsers st) ∧
    handle (EvTyping sid false) st1
      = Ok st [ mkEmit io_emit (typing_users (values (typingUsers st))) (connected st) ].
Proof.
  destruct st as [us ms ts rs ss]. cbn [users typingUsers].
  intros Hu Ht. cbn [handle]. unfold typing. cbn [users]. rewrite Hu.
  eexists. split; [reflexivity|]. split; [reflexivity|].
  cbn [users typingUsers set_typingUsers]. rewrite Hu.
  unfold set_typingUsers, emit; cbn [users messages typingUsers rooms sockets recipients].
  by rewrite delete_insert_id.
Qed.

Lemma typing_start_stop_witness :
  ∃ st1,
    handle (EvTyping "a" true) (after two_users)
      = Ok st1 [ mkEmit io_emit (typing_users [ "alice" ]) {[ "a"; "b" ]} ] ∧
    typingUsers st1 = {[ "a" := "alice" ]} ∧
    handle (EvTyping "a" false) st1
      = Ok (after two_users) [ mkEmit io_emit (typing_users []) {[ "a"; "b" ]} ].
Proof.
  destruct (typing_start_stop "a" (after two_users) (mkUser "alice" "a" {[ "global" ]}))
    as (st1 & H1 & H2 & H3); [vm_compute; reflexivity..|].
  exists st1. split; [|split].
  - rewrite H1. vm_compute. reflexivity.
  - rewrite H2. vm_compute. reflexivity.
  - rewrite H3. vm_compute. reflexivity.
Defined.

(** ** Rooms *)

Lemma reachable_room_names st r room :
  reachable st → rooms st !! r = Some room → r_name room = r.
Proof.
  intros Hst. revert r room.
  induction Hst as [|st ev st1 out Hst IH Hen Hh]; intros r0 room0 Hr.
  { unfold init in Hr; simpl in Hr. by apply lookup_singleton_Some in Hr as [<- <-]. }
  step_cases Hh; eauto.
  - rewrite lookup_insert in Hr. destruct (decide ("global" = r0)); simplify_eq/=; eauto.
  - rewrite lookup_insert in Hr. destruct (decide (r = r0)); simplify_eq/=; eauto.
  - rewrite lookup_insert in Hr. destruct (decide (r = r0)); simplify_eq/=; eauto.
  - rewrite lookup_insert in Hr. destruct (decide (r = r0)); simplify_eq/=; eauto.
  - rewrite lookup_fmap in Hr.
    destruct (rooms st !! r0) as [room1|] eqn:Hr1; simplify_eq/=. eauto.
Qed.

Lemma handle_rooms_persist ev st st1 out r :
  handle ev st = Ok st1 out → is_Some (rooms st !! r) → is_Some (rooms st1 !! r).
Proof.
  intros Hh [room Hr]. step_cases Hh; eauto.
  - rewrite lookup_insert. destruct (decide _); eauto.
  - rewrite lookup_insert. destruct (decide _); eauto.
  - rewrite lookup_insert. destruct (decide _); eauto.
  - rewrite lookup_insert. destruct (decide _); eauto.
  - rewrite lookup_fmap, Hr. simpl. eauto.
Qed.

(** X11: a room is never removed from the directory: a room that a reachable
    state has is still there after any further run, empty or not, under the
    same name, and its [name] field is the name it is stored under. *)
Theorem rooms_persist st evs st1 out r :
  reachable st → run st evs = Some (st1, out) → is_Some (rooms st !! r) →
  ∃ room, rooms st1 !! r = Some room ∧ r_name room = r.
Proof.
  intros Hst Hrun Hr.
  assert (Hsome : is_Some (rooms st1 !! r)).
  { clear Hst. revert st out Hrun Hr.
    induction evs as [|ev evs IH]; intros st out Hrun Hr; simpl in Hrun.
    - by simplify_eq.
    - destruct (enabled st ev); [|done].
      destruct (handle ev st) as [st2 out2|] eqn:Hh; [|done].
      destruct (run st2 evs) as [[st3 out3]|] eqn:Hrest; [|done]. simplify_eq.
      eapply IH; [done|]. by eapply handle_rooms_persist. }
  destruct Hsome as [room Hroom]. exists room. split; [done|].
  eapply reachable_room_names; [|done]. by eapply reachable_run.
Qed.

Lemma rooms_persist_witness :
  ∃ room,
    rooms (after (dev_room ++ [EvLeaveRoom "b" "dev" 4; EvDisconnect "b"])) !! "dev"
      = Some room ∧ r_name room = "dev".
Proof.
  eapply (rooms_persist (after dev_room) [EvLeaveRoom "b" "dev" 4; EvDisconnect "b"]
            (after (dev_room ++ [EvLeaveRoom "b" "dev" 4; EvDisconnect "b"])) _ "dev").
  - apply reachable_after.
  - vm_compute. reflexivity.
  - vm_compute. eexists. reflexivity.
Defined.

Lemma add_room_idemp r u : add_room r (add_room r u) = add_room r u.
Proof.
  unfold add_room; simpl. f_equal. apply set_eq. intros x.
  rewrite !elem_of_union. tauto.
Qed.

Lemma add_member_idemp sid room : add_member sid (add_member sid room) = add_member sid room.
Proof.
  unfold add_member; simpl. f_equal. apply set_eq. intros x.
  rewrite !elem_of_union. tauto.
Qed.

Lemma alter_idemp {V} (f : V → V) (m : gmap string V) i :
  (∀ x, f (f x) = f x) → alter f i (alter f i m) = alter f i m.
Proof.
  intros Hf. apply map_eq. intros j.
  destruct (decide (i = j)) as [<-|Hne].
  - rewrite !lookup_alter_eq. destruct (m !! i); simpl; [|done]. by rewrite Hf.
  - by rewrite !lookup_alter_ne.
Qed.

Lemma join_room_known sid r stamp st room :
  r ≠ "" → rooms st !! r = Some room →
  join_room sid r stamp st
  = Ok (joined sid r room st)
       [ emit (joined sid r room st) (io_to r)
           (room_notification r
              (username_or "User" (joined sid r room st) sid +:+ " joined " +:+ r) stamp) ].
Proof.
  intros Hne Hr. unfold join_room. rewrite decide_False by done.
  rewrite (truthy_at_own _ _ _ Hr).
  change (rooms (socket_join sid r st)) with (rooms st). by rewrite Hr.
Qed.

Lemma leave_room_known sid r stamp st room :
  r ≠ "" → rooms st !! r = Some room →
  leave_room sid r stamp st
  = Ok (parted sid r room st)
       [ emit (parted sid r room st) (io_to r)
           (room_notification r
              (username_or "User" (parted sid r room st) sid +:+ " left " +:+ r) stamp) ].
Proof.
  intros Hne Hr. unfold leave_room. rewrite decide_False by done.
  rewrite (truthy_at_own _ _ _ Hr). cbn [negb].
  change (rooms (socket_leave sid r st)) with (rooms st). by rewrite Hr.
Qed.

Lemma joined_idemp sid r room st :
  joined sid r (add_member sid room) (joined sid r room st) = joined sid r room st.
Proof.
  unfold joined; cbn [users messages typingUsers rooms sockets]. f_equal.
  - apply alter_idemp, add_room_idemp.
  - by rewrite insert_insert_eq, add_member_idemp.
  - apply alter_idemp. intros chans. apply set_eq. intros x.
    rewrite !elem_of_union. tauto.
Qed.

(** X12: joining a room again changes nothing: a second [join_room] of the
    same connection for the same name returns the state the first one left
    (and, for a non-empty name, emits the notification once more). *)
Theorem join_room_twice sid r stamp stamp2 st st1 out :
  handle (EvJoinRoom sid r stamp) st = Ok st1 out →
  ∃ out2, handle (EvJoinRoom sid r stamp2) st1 = Ok st1 out2 ∧ length out2 = length out.
Proof.
  intros Hh. cbn [handle] in *.
  destruct (decide (r = "")) as [->|Hne].
  { change (Ok st [] = Ok st1 out) in Hh. simplify_eq. by exists []. }
  assert (Hroom : ∃ room, st1 = joined sid r room st ∧ length out = 1%nat).
  { unfold join_room in Hh. rewrite decide_False in Hh by done.
    destruct (truthy_at (rooms st) r) eqn:Ht.
    - change (rooms (socket_join sid r st)) with (rooms st) in Hh.
      destruct (rooms st !! r) as [room|] eqn:Hr; [|done].
      exists room. by simplify_eq.
    - change (rooms (socket_join sid r (set_rooms _ st)))
        with (<[r := mkRoom r ∅]> (rooms st)) in Hh.
      rewrite lookup_insert_eq in Hh. exists (mkRoom r ∅). simplify_eq. split; [|done].
      unfold joined, set_users, set_rooms, socket_join, set_sockets;
        cbn [users messages typingUsers rooms sockets].
      by rewrite insert_insert_eq. }
  destruct Hroom as (room & -> & Hlen).
  rewrite (join_room_known sid r stamp2 _ (add_member sid room) Hne)
    by (cbn [rooms joined]; apply lookup_insert_eq).
  rewrite joined_idemp. eexists. split; [reflexivity|]. by rewrite Hlen.
Qed.

Lemma join_room_twice_witness :
  ∃ out2,
    handle (EvJoinRoom "a" "dev" 7) (after (dev_room ++ [EvJoinRoom "a" "dev" 2]))
      = Ok (after (dev_room ++ [EvJoinRoom "a" "dev" 2])) out2 ∧
    length out2 = 1%nat.
Proof.
  eapply (join_room_twice "a" "dev" 2 7 (after dev_room)
            (after (dev_room ++ [EvJoinRoom "a" "dev" 2])) [_]).
  vm_compute. reflexivity.
Defined.

Lemma username_or_alter dflt (f : User → User) sid c st st1 :
  (∀ u, u_username (f u) = u_username u) →
  users st1 = alter f c (users st) →
  username_or dflt st1 sid = username_or dflt st sid.
Proof.
  intros Hf Hus. unfold username_or. rewrite Hus.
  destruct (decide (c = sid)) as [->|Hne]; [|by rewrite lookup_alter_ne].
  rewrite lookup_alter_eq.
  destruct (users st !! sid) as [u|]; simpl; [|done]. by rewrite Hf.
Qed.

Lemma alter_add_del {V} (f g : V → V) (m : gmap string V) i :
  (∀ x, m !! i = Some x → g (f x) = x) → alter g i (alter f i m) = m.
Proof.
  intros Hfg. apply map_eq. intros j.
  destruct (decide (i = j)) as [<-|Hne].
  - rewrite !lookup_alter_eq. destruct (m !! i) as [x|] eqn:Hx; simpl; [|done].
    by rewrite Hfg.
  - by rewrite !lookup_alter_ne.
Qed.

Lemma union_difference_fresh (X : gset string) x : x ∉ X → (X ∪ {[ x ]}) ∖ {[ x ]} = X.
Proof.
  intros Hx. apply set_eq. intros y.
  rewrite elem_of_difference, elem_of_union, elem_of_singleton.
  split; [tauto|]. intros Hy. split; [tauto|]. by intros ->.
Qed.

(** X13: for a room of the directory that a connection is in by no account
    (not a member, not cached, not subscribed), [join_room] followed by
    [leave_room] gives back the state it started from.  The first emits one
    [room_notification] with the text [<username or User> joined <room>] to
    the channel of the room, which now holds the connection too; the second
    emits one with the text [<username or User> left <room>] to the channel
    as it was before. *)
Theorem join_then_leave_restores sid r stamp1 stamp2 st room :
  r ≠ "" → rooms st !! r = Some room →
  sid ∉ r_members room →
  ¬ cached_in (users st) sid r →
  ¬ joined_in (sockets st) sid r →
  ∃ st1,
    handle (EvJoinRoom sid r stamp1) st
      = Ok st1 [ mkEmit (io_to r)
                   (room_notification r
                      (username_or "User" st sid +:+ " joined " +:+ r) stamp1)
                   (channel st1 r) ] ∧
    (∀ c, c ∈ channel st1 r ↔ c ∈ channel st r ∨ (c = sid ∧ sid ∈ connected st)) ∧
    handle (EvLeaveRoom sid r stamp2) st1
      = Ok st [ mkEmit (io_to r)
                  (room_notification r
                     (username_or "User" st sid +:+ " left " +:+ r) stamp2)
                  (channel st r) ].
Proof.
  intros Hne Hr Hmem Hcache Hjoin. cbn [handle].
  rewrite (join_room_known sid r stamp1 st room Hne Hr).
  assert (Hback : parted sid r (add_member sid room) (joined sid r room st) = st).
  { destruct st as [us ms ts rs ss]. unfold parted, joined in *.
    cbn [users messages typingUsers rooms sockets] in *. f_equal.
    - apply alter_add_del. intros [n i rms] Hu. unfold del_room, add_room; simpl.
      f_equal. apply union_difference_fresh. intros Hin. apply Hcache.
      exists (mkUser n i rms). done.
    - rewrite insert_insert_eq. apply insert_id. rewrite Hr. f_equal.
      destruct room as [n ms0]. unfold del_member, add_member; simpl in *.
      f_equal. symmetry. by apply union_difference_fresh.
    - apply alter_add_del. intros chans Hs.
      apply union_difference_fresh. intros Hin. apply Hjoin. by exists chans. }
  assert (Hname : username_or "User" (joined sid r room st) sid = username_or "User" st sid)
    by by apply (username_or_alter "User" (add_room r) sid sid).
  exists (joined sid r room st). split; [|split].
  - unfold emit. cbn [recipients]. by rewrite Hname.
  - intros c. rewrite !elem_of_channel. cbn [sockets joined].
    rewrite joined_in_join. unfold connected. rewrite elem_of_dom.
    split; (intros [?|(-> & ? & ?)]; [by left|by right]).
  - rewrite (leave_room_known sid r stamp2 _ (add_member sid room) Hne)
      by (cbn [rooms joined]; apply lookup_insert_eq).
    by rewrite Hback.
Qed.

Lemma join_then_leave_restores_witness :
  ∃ st1,
    handle (EvJoinRoom "a" "dev" 8) (after dev_room)
      = Ok st1 [ mkEmit (io_to "dev") (room_notification "dev" "alice joined dev" 8)
                   {[ "a"; "b" ]} ] ∧
    handle (EvLeaveRoom "a" "dev" 9) st1
      = Ok (after dev_room)
           [ mkEmit (io_to "dev") (room_notification "dev" "alice left dev" 9) {[ "b" ]} ].
Proof.
  destruct (join_then_leave_restores "a" "dev" 8 9 (after dev_room) (mkRoom "dev" {[ "b" ]}))
    as (st1 & H1 & _ & H2).
  - done.
  - vm_compute. reflexivity.
  - refine (bool_decide_unpack _ _). vm_compute. exact I.
  - intros (u & Hu & Hin). vm_compute in Hu. simplify_eq.
    revert Hin. refine (bool_decide_unpack _ _). vm_compute. exact I.
  - intros (chans & Hs & Hin). vm_compute in Hs. simplify_eq.
    revert Hin. refine (bool_decide_unpack _ _). vm_compute. exact I.
  - exists st1. split.
    + rewrite H1. assert (Hst1 : st1 = after (dev_room ++ [EvJoinRoom "a" "dev" 8])).
      { assert (Hv : handle (EvJoinRoom "a" "dev" 8) (after dev_room)
                     = Ok (after (dev_room ++ [EvJoinRoom "a" "dev" 8]))
                          (drop 5 (emitted (dev_room ++ [EvJoinRoom "a" "dev" 8]))))
          by (vm_compute; reflexivity).
        rewrite H1 in Hv. by injection Hv. }
      rewrite Hst1. vm_compute. reflexivity.
    + rewrite H2. vm_compute. reflexivity.
Defined.

(** X14: in a reachable state the transport's channels follow the room
    directory: for a room name other than the socket's own id, a socket is
    subscribed to the channel of that name exactly when it is a member of the
    room of that name. *)
Theorem channels_follow_directory st c r :
  reachable st → r ≠ c →
  c ∈ channel st r ↔ member_of (rooms st) c r.
Proof.
  intros Hst Hne. rewrite elem_of_channel. by apply reachable_channels.
Qed.

Lemma channels_follow_directory_witness :
  "b" ∈ channel (after rooms_session) "ops"
  ↔ member_of (rooms (after rooms_session)) "b" "ops".
Proof.
  apply (channels_follow_directory (after rooms_session) "b" "ops").
  - apply reachable_after.
  - done.
Defined.

(** X15: in a reachable state every room cached for a connection is a room of
    the directory that has the connection among its members. *)
Theorem cached_rooms_are_memberships st c r u :
  reachable st → users st !! c = Some u → r ∈ u_rooms u →
  ∃ room, rooms st !! r = Some room ∧ c ∈ r_members room.
Proof.
  intros Hst Hu Hr. apply (reachable_cached_member st Hst c r). by exists u.
Qed.

Lemma cached_rooms_are_memberships_witness :
  ∃ room, rooms (after rooms_session) !! "ops" = Some room ∧ "b" ∈ r_members room.
Proof.
  apply (cached_rooms_are_memberships (after rooms_session) "b" "ops"
           (mkUser "bob" "b" {[ "global"; "ops" ]})).
  - apply reachable_after.
  - vm_compute. reflexivity.
  - refine (bool_decide_unpack _ _). vm_compute. exact I.
Defined.

(** ** Who is told about joining and leaving *)

Lemma join_room_inv sid r stamp st st1 out :
  r ≠ "" → join_room sid r stamp st = Ok st1 out →
  ∃ room,
    st1 = joined sid r room st ∧
    out = [ emit st1 (io_to r)
              (room_notification r (username_or "User" st1 sid +:+ " joined " +:+ r) stamp) ].
Proof.
  intros Hne Hh. unfold join_room in Hh. rewrite decide_False in Hh by done.
  destruct (truthy_at (rooms st) r) eqn:Ht.
  - change (rooms (socket_join sid r st)) with (rooms st) in Hh.
    destruct (rooms st !! r) as [room|] eqn:Hr; [|done].
    exists room. by simplify_eq.
  - change (rooms (socket_join sid r (set_rooms _ st)))
      with (<[r := mkRoom r ∅]> (rooms st)) in Hh.
    rewrite lookup_insert_eq in Hh. exists (mkRoom r ∅).
    assert (Hst : set_users (alter (add_room r) sid)
                    (set_rooms (insert r (add_member sid (mkRoom r ∅)))
                       (socket_join sid r (set_rooms (insert r (mkRoom r ∅)) st)))
                  = joined sid r (mkRoom r ∅) st).
    { unfold joined, set_users, set_rooms, socket_join, set_sockets;
        cbn [users messages typingUsers rooms sockets].
      by rewrite insert_insert_eq. }
    rewrite Hst in Hh. by simplify_eq.
Qed.

Lemma leave_room_inv sid r stamp st st1 out :
  r ≠ "" → leave_room sid r stamp st = Ok st1 out →
  (rooms st !! r = None ∧ st1 = st ∧ out = []) ∨
  ∃ room,
    rooms st !! r = Some room ∧ st1 = parted sid r room st ∧
    out = [ emit st1 (io_to r)
              (room_notification r (username_or "User" st1 sid +:+ " left " +:+ r) stamp) ].
Proof.
  intros Hne Hh. unfold leave_room in Hh. rewrite decide_False in Hh by done.
  destruct (truthy_at (rooms st) r) eqn:Ht; cbn [negb] in Hh.
  - change (rooms (socket_leave sid r st)) with (rooms st) in Hh.
    destruct (rooms st !! r) as [room|] eqn:Hr; [|done].
    right. exists room. by simplify_eq.
  - apply truthy_at_false in Ht as [Hr _]. left. by simplify_eq.
Qed.

(** X16: a connected socket that joins a room under a non-empty name is a
    member of the room afterwards and receives itself the one
    [room_notification] the handler emits to the channel of the room, which
    names it by its username, or [User] if it has none. *)
Theorem join_room_notice sid r stamp st st1 out :
  sid ∈ connected st → r ≠ "" →
  handle (EvJoinRoom sid r stamp) st = Ok st1 out →
  ∃ e,
    out = [e] ∧ e_target e = io_to r ∧
    e_payload e
      = room_notification r (username_or "User" st sid +:+ " joined " +:+ r) stamp ∧
    sid ∈ e_recipients e ∧
    member_of (rooms st1) sid r.
Proof.
  intros Hconn Hne Hh. cbn [handle] in Hh.
  destruct (join_room_inv _ _ _ _ _ _ Hne Hh) as (room & -> & ->).
  eexists. split; [reflexivity|]. split; [done|]. split.
  { cbn [e_payload emit]. do 2 f_equal.
    by apply (username_or_alter "User" (add_room r) sid sid). }
  split.
  - cbn [e_recipients emit recipients]. apply elem_of_channel.
    cbn [sockets joined]. apply joined_in_join. right.
    unfold connected in Hconn. by apply elem_of_dom in Hconn.
  - exists (add_member sid room). cbn [rooms joined]. rewrite lookup_insert_eq.
    split; [done|]. simpl. apply elem_of_union. right. by apply elem_of_singleton.
Qed.

Lemma join_room_notice_witness :
  ∃ e,
    emitted (dev_room ++ [EvJoinRoom "a" "dev" 2]) = emitted dev_room ++ [e] ∧
    e_target e = io_to "dev" ∧
    e_payload e = room_notification "dev" "alice joined dev" 2 ∧
    "a" ∈ e_recipients e ∧
    member_of (rooms (after (dev_room ++ [EvJoinRoom "a" "dev" 2]))) "a" "dev".
Proof.
  destruct (join_room_notice "a" "dev" 2 (after dev_room)
              (after (dev_room ++ [EvJoinRoom "a" "dev" 2]))
              (drop (length (emitted dev_room)) (emitted (dev_room ++ [EvJoinRoom "a" "dev" 2]))))
    as (e & Hout & Ht & Hp & Hr & Hm).
  - refine (bool_decide_unpack _ _). vm_compute. exact I.
  - done.
  - vm_compute. reflexivity.
  - exists e. split; [|done].
    vm_compute in Hout. injection Hout as <-. vm_compute. reflexivity.
Defined.

(** X17: after a [leave_room] with a non-empty name, in a reachable state,
    the connection is not a member of that room, the room is not cached for
    it, and what the handler emitted does not reach it. *)
Theorem leave_room_effects sid r stamp st st1 out :
  reachable st → r ≠ "" →
  handle (EvLeaveRoom sid r stamp) st = Ok st1 out →
  ¬ member_of (rooms st1) sid r ∧
  ¬ cached_in (users st1) sid r ∧
  Forall (λ e, sid ∉ e_recipients e) out.
Proof.
  intros Hst Hne Hh. cbn [handle] in Hh.
  destruct (leave_room_inv _ _ _ _ _ _ Hne Hh)
    as [(Hr & -> & ->)|(room & Hr & -> & ->)].
  - assert (Hnm : ¬ member_of (rooms st) sid r).
    { intros (room & Hroom & _). congruence. }
    split; [done|]. split; [|by constructor].
    intros Hc. by apply Hnm, (reachable_cached_member st Hst).
  - cbn [rooms users parted]. split.
    { rewrite member_of_del by done. tauto. } split.
    { rewrite cached_in_del. tauto. }
    repeat constructor. cbn [e_recipients emit recipients].
    rewrite elem_of_channel. cbn [sockets parted]. rewrite joined_in_leave. tauto.
Qed.

Lemma leave_room_effects_witness :
  ∃ st1 out,
    handle (EvLeaveRoom "b" "dev" 4) (after dev_room) = Ok st1 out ∧
    length out = 1%nat ∧
    ¬ member_of (rooms st1) "b" "dev" ∧
    ¬ cached_in (users st1) "b" "dev" ∧
    Forall (λ e, "b" ∉ e_recipients e) out.
Proof.
  eexists _, _. split; [vm_compute; reflexivity|]. split; [reflexivity|].
  eapply (leave_room_effects "b" "dev" 4 (after dev_room)).
  - apply reachable_after.
  - done.
  - vm_compute. reflexivity.
Defined.

(** ** Private messages *)

(** X18: a private message is not stored and changes no store.  It is
    emitted twice with the same payload: with [socket.to(to)], which reaches
    the sockets of the channel [to] that are not in the channel named by the
    sender's id, and to the sender; it is acknowledged with its id if a
    callback came.  In a reachable state a connection other than [to] and the
    sender receives the first emission exactly when it is a member of a room
    of the directory named [to] and not a member of a room named by the
    sender's id. *)
Theorem private_message_delivery sid to message ack now stamp st c :
  reachable st → c ≠ to → c ≠ sid →
  ∃ e1 e2,
    handle (EvPrivateMessage sid (Some (mkPrivateMessageData to message)) ack now stamp) st
      = Ok st ([e1; e2]
               ++ (if ack then [mkEmit (ack_to sid) (ack_out true now) {[ sid ]}] else [])) ∧
    e_payload e1
      = private_message_out now (username_or "Anonymous" st sid) sid message stamp ∧
    e_payload e2 = e_payload e1 ∧
    e_target e1 = socket_to sid to ∧ e_target e2 = socket_emit sid ∧
    e_recipients e1 = channel st to ∖ channel st sid ∧
    e_recipients e2 = {[ sid ]} ∩ connected st ∧
    (c ∈ e_recipients e1 ↔ member_of (rooms st) c to ∧ ¬ member_of (rooms st) c sid).
Proof.
  intros Hst Hto Hsid. eexists _, _. split; [reflexivity|].
  repeat (split; [reflexivity|]). cbn [e_recipients emit recipients].
  rewrite elem_of_difference, !elem_of_channel.
  rewrite (reachable_channels st Hst c to) by done.
  by rewrite (reachable_channels st Hst c sid) by done.
Qed.

Lemma private_message_delivery_witness :
  ∃ e1 e2,
    handle (EvPrivateMessage "a" (Some (mkPrivateMessageData "b" "psst")) false 50 51)
           (after eavesdropper)
      = Ok (after eavesdropper) ([e1; e2] ++ []) ∧
    e_payload e1 = private_message_out 50 "alice" "a" "psst" 51 ∧
    e_payload e2 = e_payload e1 ∧
    e_target e1 = socket_to "a" "b" ∧ e_target e2 = socket_emit "a" ∧
    e_recipients e1 = {[ "b"; "c" ]} ∧
    e_recipients e2 = {[ "a" ]} ∧
    ("c" ∈ e_recipients e1
     ↔ member_of (rooms (after eavesdropper)) "c" "b"
       ∧ ¬ member_of (rooms (after eavesdropper)) "c" "a").
Proof.
  destruct (private_message_delivery "a" "b" "psst" false 50 51 (after eavesdropper) "c")
    as (e1 & e2 & Hh & Hp1 & Hp2 & Ht1 & Ht2 & Hr1 & Hr2 & Hc).
  - apply reachable_after.
  - done.
  - done.
  - exists e1, e2. split; [exact Hh|]. split; [exact Hp1|]. split; [exact Hp2|].
    split; [exact Ht1|]. split; [exact Ht2|].
    split; [rewrite Hr1; vm_compute; reflexivity|].
    split; [rewrite Hr2; vm_compute; reflexivity|]. exact Hc.
Defined.

(** ** Disconnecting *)

(** X19: every emission of a [disconnect] goes to all sockets that stay
    connected and never to the one that left; [user_left] is among them
    exactly when the connection had an entry in [users], and carries the
    username of that entry; the message log is left as it was. *)
Theorem disconnect_emissions sid st :
  ∃ st1 out,
    handle (EvDisconnect sid) st = Ok st1 out ∧
    messages st1 = messages st ∧
    Forall (λ e, e_target e = io_emit ∧ e_recipients e = connected st ∖ {[ sid ]}) out ∧
    ∀ name,
      (∃ e, e ∈ out ∧ e_payload e = user_left name sid)
      ↔ u_username <$> users st !! sid = Some name.
Proof.
  assert (Hrec : ∀ st0, sockets st0 = delete sid (sockets st) →
                        recipients st0 io_emit = connected st ∖ {[ sid ]}).
  { intros st0 Hs. cbn [recipients]. unfold connected. by rewrite Hs, dom_delete_L. }
  cbn [handle]. unfold disconnect.
  change (users (socket_close sid st)) with (users st).
  destruct (users st !! sid) as [u|] eqn:Hu; eexists _, _;
    (split; [reflexivity|]); (split; [reflexivity|]); split.
  - repeat constructor; cbn [e_recipients emit]; by apply Hrec.
  - intros name. cbn [fmap option_fmap option_map app]. split.
    + intros (e & He & Hp). rewrite !elem_of_cons in He.
      destruct He as [->|[->|[->|He]]]; cbn in Hp; try done.
      * by simplify_eq.
      * by apply not_elem_of_nil in He.
    + intros [= <-]. eexists. split; [apply list_elem_of_here|done].
  - repeat constructor; cbn [e_recipients emit]; by apply Hrec.
  - intros name. cbn [fmap option_fmap option_map app]. split; [|done].
    intros (e & He & Hp). rewrite !elem_of_cons in He.
    destruct He as [->|[->|He]]; cbn in Hp; try done.
    by apply not_elem_of_nil in He.
Qed.

(** ** Sending *)

(** X20: [send_message] acknowledges, when a callback came, with the id under
    which the message is stored, then emits once [receive_message]; the
    payload emitted is the last entry [/api/messages] returns afterwards and
    carries the clock reading as id, the sender's socket id, the target room
    and the time stamp. *)
Theorem send_message_ack_and_payload sid messageData ack now stamp st :
  ∃ st1 e v,
    handle (EvSendMessage sid messageData ack now stamp) st
      = Ok st1 ((if ack then [mkEmit (ack_to sid) (ack_out true now) {[ sid ]}] else [])
                ++ [e]) ∧
    e_payload e = receive_message v ∧
    last (api_messages st1) = Some v ∧
    v_id v = now ∧ v_senderId v = sid ∧ v_timestamp v = stamp ∧
    v_room v = target_room messageData ∧
    v_message v = md_message <$> messageData.
Proof.
  cbn [handle]. unfold send_message.
  set (message := mkMessage _ _ _ _ _ _ _ _).
  assert (Hlast : last (api_messages (set_messages (push_capped message) st))
                  = Some (view message)).
  { unfold api_messages. cbn [messages set_messages].
    by rewrite fmap_last, push_capped_last. }
  destruct (_ && _); eexists _, _, (view message);
    (split; [destruct ack; reflexivity|]); (split; [reflexivity|]);
    (split; [exact Hlast|]); by repeat split.
Qed.

(** X21: in a reachable state a message sent without a room, or with the
    empty room name, is stored under [global] and emitted to the channel
    [global], never to everybody; when no socket has the id [global] it
    reaches exactly the members of the room [global]. *)
Theorem send_without_room_goes_to_global sid messageData ack now stamp st :
  reachable st →
  (messageData = None ∨
   ∃ d, messageData = Some d ∧ (md_room d = None ∨ md_room d = Some "")) →
  ∃ st1 acks e g message,
    handle (EvSendMessage sid messageData ack now stamp) st = Ok st1 (acks ++ [e]) ∧
    last (messages st1) = Some message ∧ m_room message = "global" ∧
    e_target e = io_to "global" ∧
    rooms st !! "global" = Some g ∧
    ("global" ∉ connected st → e_recipients e = r_members g).
Proof.
  intros Hst Hdata.
  assert (Hroom : target_room messageData = "global").
  { destruct Hdata as [->|(d & -> & [Hd|Hd])]; unfold target_room; by rewrite ?Hd. }
  destruct (reachable_directory st Hst) as [[g Hg] _].
  assert (Htruthy : truthy_at (rooms st) "global" = true)
    by by apply (truthy_at_own _ _ g).
  cbn [handle]. unfold send_message.
  set (message := mkMessage _ _ _ _ _ _ _ _).
  change (m_room message) with (target_room messageData). rewrite Hroom.
  change (rooms (set_messages (push_capped message) st)) with (rooms st).
  rewrite Htruthy. cbn [negb bool_decide andb].
  eexists _, _, _, g, message. split; [reflexivity|].
  split; [apply push_capped_last|]. split; [exact Hroom|].
  split; [reflexivity|]. split; [done|].
  intros Hfree. cbn [e_recipients emit recipients]. apply set_eq. intros c.
  change (channel (set_messages (push_capped message) st) "global")
    with (channel st "global").
  destruct (reachable_connected st Hst) as [_ Hmem].
  assert (Hc : c ∈ channel st "global" ∨ c ∈ r_members g → "global" ≠ c).
  { intros [Hin|Hin] <-; apply Hfree.
    - apply elem_of_channel in Hin as (chans & Hs & _). apply elem_of_dom. eauto.
    - eauto. }
  split; intros Hin; pose proof (Hc ltac:(tauto)) as Hne.
  - apply elem_of_channel, (reachable_channels st Hst c "global" Hne) in Hin
      as (room & Hr & Hin). by simplify_eq.
  - apply elem_of_channel, (reachable_channels st Hst c "global" Hne). by exists g.
Qed.

Lemma send_without_room_goes_to_global_witness :
  ∃ st1 acks e g message,
    handle (EvSendMessage "a" None true 60 61) (after dev_room) = Ok st1 (acks ++ [e]) ∧
    last (messages st1) = Some message ∧ m_room message = "global" ∧
    e_target e = io_to "global" ∧
    rooms (after dev_room) !! "global" = Some g ∧
    ("global" ∉ connected (after dev_room) → e_recipients e = r_members g).
Proof.
  apply (send_without_room_goes_to_global "a" None true 60 61 (after dev_room)).
  - apply reachable_after.
  - by left.
Defined.

(** ** Registering *)

(** X22: in a reachable state a [user_join] of a connected socket stores
    its entry, emits [user_list] with the new list and [user_joined] with its
    username and id, both to every connected socket and so to the socket
    itself, and puts it in the room [global] in all three views (member of
    the room, room cached, channel subscribed); no other room is cached for
    it. *)
Theorem user_join_enters_global sid username st :
  reachable st → sid ∈ connected st →
  ∃ st1 out,
    handle (EvUserJoin sid username) st = Ok st1 out ∧
    users st1 = <[sid := mkUser username sid {[ "global" ]}]> (users st) ∧
    out = [ mkEmit io_emit (user_list (values (users st1))) (connected st);
            mkEmit io_emit (user_joined username sid) (connected st) ] ∧
    Forall (λ e, sid ∈ e_recipients e) out ∧
    member_of (rooms st1) sid "global" ∧
    (∀ r, cached_in (users st1) sid r ↔ r = "global") ∧
    sid ∈ channel st1 "global".
Proof.
  intros Hst Hconn. destruct (reachable_directory st Hst) as [[g Hg] _].
  cbn [handle]. unfold user_join.
  change (rooms (socket_join sid "global" (set_users _ st))) with (rooms st).
  rewrite Hg. eexists _, _. split; [reflexivity|].
  unfold set_rooms, socket_join, set_sockets, set_users, emit;
    cbn [users messages typingUsers rooms sockets recipients].
  assert (Hs : is_Some (sockets st !! sid)) by by apply elem_of_dom.
  assert (Hdom : connected
                   (mkState (<[sid := mkUser username sid {[ "global" ]}]> (users st))
                      (messages st) (typingUsers st)
                      (<["global" := add_member sid g]> (rooms st))
                      (alter (λ rs, rs ∪ {[ "global" ]}) sid (sockets st)))
                 = connected st).
  { unfold connected; cbn [sockets]. by rewrite dom_alter_L. }
  rewrite Hdom.
  split; [done|]. split; [done|]. split; [by repeat constructor|].
  split; [|split].
  - rewrite member_of_add by done. by right.
  - intros r. rewrite cached_in_register. split; [|by left].
    intros [[_ ->]|[Hne _]]; done.
  - apply elem_of_channel. cbn [sockets]. apply joined_in_join. by right.
Qed.

Lemma user_join_enters_global_witness :
  ∃ st1 out,
    handle (EvUserJoin "c" "carol") (after (dev_room ++ [EvConnection "c"])) = Ok st1 out ∧
    users st1
      = <["c" := mkUser "carol" "c" {[ "global" ]}]>
          (users (after (dev_room ++ [EvConnection "c"]))) ∧
    out = [ mkEmit io_emit (user_list (values (users st1)))
              (connected (after (dev_room ++ [EvConnection "c"])));
            mkEmit io_emit (user_joined "carol" "c")
              (connected (after (dev_room ++ [EvConnection "c"]))) ] ∧
    Forall (λ e, "c" ∈ e_recipients e) out ∧
    member_of (rooms st1) "c" "global" ∧
    (∀ r, cached_in (users st1) "c" r ↔ r = "global") ∧
    "c" ∈ channel st1 "global".
Proof.
  apply (user_join_enters_global "c" "carol" (after (dev_room ++ [EvConnection "c"]))).
  - apply reachable_after.
  - refine (bool_decide_unpack _ _). vm_compute. exact I.
Defined.

(** ** The channel of a socket's own id *)

Lemma reachable_own_channel st c chans :
  reachable st → sockets st !! c = Some chans → c ∈ chans ∨ is_Some (rooms st !! c).
Proof.
  intros Hst. revert c chans.
  induction Hst as [|st ev st1 out Hst IH Hen Hh]; intros c chans Hs.
  { unfold init in Hs; simpl in Hs. by rewrite lookup_empty in Hs. }
  step_cases Hh; eauto.
  - rewrite lookup_insert in Hs. destruct (decide (sid = c)); simplify_eq; [|by eauto].
    left. by apply elem_of_singleton.
  - rewrite lookup_insert. destruct (decide ("global" = c)); [by eauto|].
    rewrite lookup_alter in Hs. destruct (decide (sid = c)); [|by eauto]. subst.
    destruct (sockets st !! c) as [chans0|] eqn:Hs0; simplify_eq/=.
    destruct (IH _ _ Hs0); [left|by right]. apply elem_of_union. by left.
  - rewrite lookup_insert. destruct (decide (r = c)); [by eauto|].
    rewrite lookup_alter in Hs. destruct (decide (sid = c)); [|by eauto]. subst.
    destruct (sockets st !! c) as [chans0|] eqn:Hs0; simplify_eq/=.
    destruct (IH _ _ Hs0); [left|by right]. apply elem_of_union. by left.
  - rewrite lookup_insert. destruct (decide (r = c)); [by eauto|].
    rewrite lookup_alter in Hs. destruct (decide (sid = c)); [|by eauto]. subst.
    destruct (sockets st !! c) as [chans0|] eqn:Hs0; simplify_eq/=.
    destruct (IH _ _ Hs0); [left|by right]. apply elem_of_union. by left.
  - rewrite lookup_insert. destruct (decide (r = c)); [by eauto|].
    rewrite lookup_alter in Hs. destruct (decide (sid = c)); [|by eauto]. subst.
    destruct (sockets st !! c) as [chans0|] eqn:Hs0; simplify_eq/=.
    destruct (IH _ _ Hs0); [left|by right].
    apply elem_of_difference. split; [done|]. by rewrite elem_of_singleton.
  - rewrite lookup_delete in Hs. destruct (decide (sid = c)); [done|].
    rewrite lookup_fmap. destruct (IH _ _ Hs) as [?|[room ->]]; [by left|].
    right. simpl. eauto.
Qed.

Lemma own_channel st c :
  reachable st → c ∈ connected st → rooms st !! c = None → channel st c = {[ c ]}.
Proof.
  intros Hst Hc Hr. apply set_eq. intros x.
  rewrite elem_of_singleton, elem_of_channel. split.
  - intros Hj. destruct (decide (c = x)) as [->|Hne]; [done|].
    apply (reachable_channels st Hst x c Hne) in Hj as (room & Hroom & _). congruence.
  - intros ->. unfold connected in Hc. apply elem_of_dom in Hc as [chans Hs].
    exists chans. split; [done|].
    destruct (reachable_own_channel st c chans Hst Hs) as [?|[room Hroom]]; [done|].
    congruence.
Qed.

(** X23: in a reachable state, when the sender of a retained message is
    still connected and the directory has no room named by its socket id, the
    [message_read] for that message reaches the sender's socket and no other. *)
Theorem message_read_reaches_sender_only st sid messageId msg :
  reachable st →
  find_message messageId (messages st) = Some msg →
  m_senderId msg ∈ connected st → rooms st !! m_senderId msg = None →
  ∃ st1 e,
    handle (EvMessageRead sid (Some messageId)) st = Ok st1 [e] ∧
    e_recipients e = {[ m_senderId msg ]}.
Proof.
  intros Hst Hfind Hconn Hroom. cbn [handle]. unfold message_read.
  rewrite Hfind. eexists _, _. split; [reflexivity|].
  cbn [e_recipients emit recipients].
  change (channel (set_messages _ st) (m_senderId msg))
    with (channel st (m_senderId msg)).
  by apply own_channel.
Qed.

Lemma message_read_reaches_sender_only_witness :
  ∃ st1 e,
    handle (EvMessageRead "b" (Some 1000)) (after (one_message ++ [EvConnection "b"]))
      = Ok st1 [e] ∧
    e_recipients e = {[ "a" ]}.
Proof.
  apply (message_read_reaches_sender_only (after (one_message ++ [EvConnection "b"]))
           "b" 1000 (mkMessage (Some "hi") 1000 "alice" "a" 1000 "global" ∅ ∅)).
  - apply reachable_after.
  - vm_compute. reflexivity.
  - refine (bool_decide_unpack _ _). vm_compute. exact I.
  - vm_compute. reflexivity.
Defined.

(** X24: in a reachable state a private message to a connected socket [to],
    sent by another socket while the directory has no room named [to],
    reaches [to] and nobody else with its first emission (the second is the
    echo to the sender), unless [to] is a member of a room named by the
    sender's id: then it reaches nobody. *)
Theorem private_message_reaches_target_only st sid to message ack now stamp :
  reachable st →
  to ∈ connected st → rooms st !! to = None → sid ≠ to →
  ∃ e1 rest,
    handle (EvPrivateMessage sid (Some (mkPrivateMessageData to message)) ack now stamp) st
      = Ok st (e1 :: rest) ∧
    e_target e1 = socket_to sid to ∧
    (¬ member_of (rooms st) to sid → e_recipients e1 = {[ to ]}) ∧
    (member_of (rooms st) to sid → e_recipients e1 = ∅).
Proof.
  intros Hst Hconn Hroom Hne.
  eexists _, _. split; [reflexivity|]. split; [reflexivity|].
  cbn [e_recipients emit recipients pm_to].
  rewrite (own_channel st to Hst Hconn Hroom).
  assert (Hin : to ∈ channel st sid ↔ member_of (rooms st) to sid).
  { rewrite elem_of_channel. by apply reachable_channels. }
  split; intros Hmem; apply set_eq; intros x;
    rewrite elem_of_difference, elem_of_singleton.
  - split; [tauto|]. intros ->. tauto.
  - split; [|by intros ?%not_elem_of_empty]. intros [-> Hx]. tauto.
Qed.

Lemma private_message_reaches_target_only_witness :
  ∃ e1 rest,
    handle (EvPrivateMessage "b" (Some (mkPrivateMessageData "a" "psst")) true 70 70)
           (after (one_message ++ [EvConnection "b"]))
      = Ok (after (one_message ++ [EvConnection "b"])) (e1 :: rest) ∧
    e_target e1 = socket_to "b" "a" ∧
    e_recipients e1 = {[ "a" ]}.
Proof.
  destruct (private_message_reaches_target_only (after (one_message ++ [EvConnection "b"]))
              "b" "a" "psst" true 70 70)
    as (e1 & rest & Hh & Ht & Hr & _).
  - apply reachable_after.
  - refine (bool_decide_unpack _ _). vm_compute. exact I.
  - vm_compute. reflexivity.
  - done.
  - exists e1, rest. split; [exact Hh|]. split; [exact Ht|]. apply Hr.
    intros (room & Hroom & _). vm_compute in Hroom. discriminate.
Defined.

(** After [b] has joined the room named by the id of [a], a private message
    of [a] to [b] reaches nobody. *)
Example private_message_lost :
  ∃ e1 e2,
    handle (EvPrivateMessage "a" (Some (mkPrivateMessageData "b" "psst")) false 70 70)
           (after (two_users ++ [EvJoinRoom "b" "a" 1]))
      = Ok (after (two_users ++ [EvJoinRoom "b" "a" 1])) [e1; e2] ∧
    e_recipients e1 = ∅ ∧ e_recipients e2 = {[ "a" ]}.
Proof.
  eexists _, _. split; [vm_compute; reflexivity|]. split; vm_compute; reflexivity.
Qed.
